(** * Galaxy: a gravitational N-body simulator (src/main.cc)

    Shallow embedding of the physics engine of [main.cc]: the NaN purge of
    the frame loop, the collision merger of [updateStars], the force kernel
    of [thread_fn], the spawner [addRandomGalaxy], the creation of the worker
    threads and the barrier protocol between the frame loop and the workers;
    and of what the frame loop does around it: the mouse and the arrow keys,
    and [drawStar].

    The headers [star.hh], [vec2d.hh] and [util.hh] are not part of the
    sources at hand; what [main.cc] uses from them is modelled from the
    specification and marked as such.  [bitmap.hh] and [gui.hh] are not
    part of them either: of the bitmap, the model keeps the coordinates
    that [drawStar] hands to it. *)

From Stdlib Require Import ZArith Reals Lra Lia Bool.
From Stdlib Require Import Floats.SpecFloat.
From stdpp Require Import base list.

Set Default Proof Using "Type".

(** * Arithmetic

    The program computes with C++ [float]s.  The embedding is written once
    over an interface of the operations the program uses and is read at two
    instances: IEEE 754 binary32 (what the machine computes, with NaN and
    infinities) and the real numbers (exact arithmetic, for the algebraic
    laws). *)

Class Arith (num : Type) := {
  of_Z : Z -> num;
  n_add : num -> num -> num;
  n_sub : num -> num -> num;
  n_mul : num -> num -> num;
  n_div : num -> num -> num;
  n_neg : num -> num;
  n_sqrt : num -> num;
  n_ltb : num -> num -> bool;
  n_neqb : num -> num -> bool
}.

Infix "⊕" := n_add (at level 50, left associativity).
Infix "⊖" := n_sub (at level 50, left associativity).
Infix "⊗" := n_mul (at level 40, left associativity).
Infix "⊘" := n_div (at level 40, left associativity).

(** ** IEEE 754 binary32 *)

Definition prec : Z := 24.
Definition emax : Z := 128.

Definition float : Type := spec_float.

Definition float_of_Z (z : Z) : float := binary_normalize prec emax z 0 false.

#[export] Instance float_arith : Arith float := {|
  of_Z := float_of_Z;
  n_add := SFadd prec emax;
  n_sub := SFsub prec emax;
  n_mul := SFmul prec emax;
  n_div := SFdiv prec emax;
  n_neg := SFopp;
  n_sqrt := SFsqrt prec emax;
  n_ltb := SFltb;
  n_neqb := fun a b => negb (SFeqb a b)
|}.

Definition is_nan (f : float) : bool :=
  match f with S754_nan => true | _ => false end.

Definition is_infinite (f : float) : bool :=
  match f with S754_infinity _ => true | _ => false end.

Definition is_finite (f : float) : bool :=
  match f with S754_zero _ | S754_finite _ _ _ => true | _ => false end.

Definition is_zero (f : float) : bool :=
  match f with S754_zero _ => true | _ => false end.

(** ** Real numbers *)

Definition Rltb (a b : R) : bool := if Rlt_dec a b then true else false.
Definition Rneqb (a b : R) : bool := if Req_dec_T a b then false else true.

#[export] Instance R_arith : Arith R := {|
  of_Z := IZR;
  n_add := Rplus;
  n_sub := Rminus;
  n_mul := Rmult;
  n_div := Rdiv;
  n_neg := Ropp;
  n_sqrt := sqrt;
  n_ltb := Rltb;
  n_neqb := Rneqb
|}.

(** * Vectors ([vec2d.hh]) *)

Record vec2d (num : Type) := Vec2d { vec_x : num; vec_y : num }.
Arguments Vec2d {num} _ _.
Arguments vec_x {num} _.
Arguments vec_y {num} _.

Section Vectors.
Context {num : Type} `{Arith num}.

Definition vzero : vec2d num := Vec2d (of_Z 0) (of_Z 0).

Definition vadd (u v : vec2d num) : vec2d num :=
  Vec2d (vec_x u ⊕ vec_x v) (vec_y u ⊕ vec_y v).

Definition vsub (u v : vec2d num) : vec2d num :=
  Vec2d (vec_x u ⊖ vec_x v) (vec_y u ⊖ vec_y v).

Definition vneg (u : vec2d num) : vec2d num :=
  Vec2d (n_neg (vec_x u)) (n_neg (vec_y u)).

(** [v * k] and [v / k] of the source, and [k * v] of the merge rule. *)
Definition vmul (u : vec2d num) (k : num) : vec2d num :=
  Vec2d (vec_x u ⊗ k) (vec_y u ⊗ k).

Definition vdiv (u : vec2d num) (k : num) : vec2d num :=
  Vec2d (vec_x u ⊘ k) (vec_y u ⊘ k).

Definition smul (k : num) (u : vec2d num) : vec2d num :=
  Vec2d (k ⊗ vec_x u) (k ⊗ vec_y u).

Definition dot (u v : vec2d num) : num :=
  (vec_x u ⊗ vec_x v) ⊕ (vec_y u ⊗ vec_y v).

(** Modelled from the spec: [vec2d::magnitude] (vec2d.hh), the Euclidean
    length that section 4.3 uses as the distance between two positions. *)
Definition magnitude (u : vec2d num) : num :=
  n_sqrt ((vec_x u ⊗ vec_x u) ⊕ (vec_y u ⊗ vec_y u)).

(** Modelled from the spec: [vec2d::normalized] (vec2d.hh), the unit vector
    of section 4.4, the vector divided by its length. *)
Definition normalized (u : vec2d num) : vec2d num :=
  vdiv u (magnitude u).

(** [pow(d, 2)] of <cmath>. *)
Definition pow2 (d : num) : num := d ⊗ d.
End Vectors.

(** * Stars ([star.hh]) *)

(** Modelled from the spec: the [star] class (star.hh) with the state of
    section 3: position, velocity, mass and the accumulated force.  The
    colour is used for drawing only and is left out. *)
Record star (num : Type) := Star {
  mass : num;
  pos : vec2d num;
  vel : vec2d num;
  force : vec2d num
}.
Arguments Star {num} _ _ _ _.
Arguments mass {num} _.
Arguments pos {num} _.
Arguments vel {num} _.
Arguments force {num} _.

(** Modelled from the spec: the radius function of [star::radius]
    (star.hh).  Section 3 says that the radius is "a derived, monotonically
    increasing function of mass" and leaves the function itself open ("the
    exact function reimplementable as a configuration constant"): here it is
    a parameter, and what is proved about the merger holds for every such
    function. *)
Class StarShape (num : Type) := { mass_radius : num -> num }.

Section Stars.
Context {num : Type} `{Arith num} `{StarShape num}.

(** The constructor [star(mass, pos, vel, color)]: no force accumulated. *)
Definition new_star (m : num) (p v : vec2d num) : star num :=
  Star m p v vzero.

(** Modelled from the spec: [star::radius] (star.hh), a function of the
    mass (section 3). *)
Definition radius (s : star num) : num :=
  mass_radius (mass s).

(** Modelled from the spec: [star::merge] (star.hh), the merge rule of
    section 3: the masses add, the velocity is [(mA*vA + mB*vB) / mass'],
    the position is that of the input of larger mass, the first one on a
    tie. *)
Definition merge (a b : star num) : star num :=
  let m := mass a ⊕ mass b in
  new_star m
    (if n_ltb (mass a) (mass b) then pos b else pos a)
    (vdiv (vadd (smul (mass a) (vel a)) (smul (mass b) (vel b))) m).

(** Modelled from the spec: [star::addForce] (star.hh), section 4.1. *)
Definition addForce (s : star num) (f : vec2d num) : star num :=
  Star (mass s) (pos s) (vel s) (vadd (force s) f).

(** Modelled from the spec: [star::update] (star.hh), section 4.1: the
    velocity takes [force / mass * dt], the position then moves by the new
    velocity times [dt], and the accumulated force is reset. *)
Definition update (s : star num) (dt : num) : star num :=
  let v := vadd (vel s) (vmul (vdiv (force s) (mass s)) dt) in
  Star (mass s) (vadd (pos s) (vmul v dt)) v vzero.

(** The test of [updateStars], lines 172-179. *)
Definition overlap (a b : star num) : bool :=
  let r1 := radius a in
  let r2 := radius b in
  let diff := vsub (pos a) (pos b) in
  n_ltb (magnitude diff) (r1 ⊕ r2).
End Stars.

(** * The NaN purge of the frame loop ([main], lines 136-145) *)

Section Purge.
Context {num : Type} `{Arith num}.

(** The condition of line 139: a coordinate that differs from itself. *)
Definition nan_pos (s : star num) : bool :=
  n_neqb (vec_x (pos s)) (vec_x (pos s)) || n_neqb (vec_y (pos s)) (vec_y (pos s)).

(** The loop over [i]: an erased star leaves [i] where it is ([i--] and
    the [i++] of the loop).  [None] is a run that is out of fuel or reads
    outside the vector. *)
Fixpoint purge_loop (fuel i : nat) (stars : list (star num))
  : option (list (star num)) :=
  if decide (i < length stars) then
    match fuel with
    | O => None
    | S fuel' =>
        match stars !! i with
        | Some s =>
            if nan_pos s then purge_loop fuel' i (delete i stars)
            else purge_loop fuel' (S i) stars
        | None => None
        end
    end
  else Some stars.

Definition purge (stars : list (star num)) : option (list (star num)) :=
  purge_loop (length stars) 0 stars.
End Purge.

(** In binary32: no coordinate of the position is NaN.  The velocity is not
    looked at. *)
Definition placed (s : star float) : Prop :=
  is_nan (vec_x (pos s)) = false /\ is_nan (vec_y (pos s)) = false.

#[export] Instance placed_dec (s : star float) : Decision (placed s) :=
  and_dec _ _.

(** * The collision merger ([updateStars], lines 169-187) *)

Section Merger.
Context {num : Type} `{Arith num} `{StarShape num}.

(** The loop over [j] for a fixed [i]: after a merge the vector is one
    shorter and [j] stays ([j--] and the [j++] of the loop). *)
Fixpoint merge_inner (fuel i j : nat) (stars : list (star num))
  : option (list (star num)) :=
  if decide (j < length stars) then
    match fuel with
    | O => None
    | S fuel' =>
        match stars !! i, stars !! j with
        | Some si, Some sj =>
            if overlap si sj then
              merge_inner fuel' i j (delete j (<[i := merge si sj]> stars))
            else merge_inner fuel' i (S j) stars
        | _, _ => None
        end
    end
  else Some stars.

(** The loop over [i]. *)
Fixpoint merge_outer (fuel i : nat) (stars : list (star num))
  : option (list (star num)) :=
  if decide (i < length stars) then
    match fuel with
    | O => None
    | S fuel' =>
        match merge_inner (length stars) i (S i) stars with
        | Some stars' => merge_outer fuel' (S i) stars'
        | None => None
        end
    end
  else Some stars.

(** The merge phase of [updateStars]; the two barrier calls that follow it
    are part of the protocol below. *)
Definition updateStars (stars : list (star num)) : option (list (star num)) :=
  merge_outer (length stars) 0 stars.

(** What one run of the inner loop computes: star [a] absorbs, from left to
    right, every later star that overlaps its current state. *)
Fixpoint absorb (a : star num) (rest : list (star num))
  : star num * list (star num) :=
  match rest with
  | [] => (a, [])
  | b :: rest' =>
      if overlap a b then absorb (merge a b) rest'
      else let '(a', r) := absorb a rest' in (a', b :: r)
  end.

(** What the outer loop computes on the stars from [i] on: each star in turn
    absorbs what overlaps it among the stars that are left after it.  The
    fuel is that of the outer loop. *)
Fixpoint sweep (fuel : nat) (l : list (star num)) : option (list (star num)) :=
  match l with
  | [] => Some []
  | a :: rest =>
      match fuel with
      | O => None
      | S fuel' =>
          match sweep fuel' (absorb a rest).2 with
          | Some out => Some ((absorb a rest).1 :: out)
          | None => None
          end
      end
  end.

(** No two stars of the collection overlap. *)
Definition overlap_free (stars : list (star num)) : Prop :=
  forall i j a b, i < j -> stars !! i = Some a -> stars !! j = Some b ->
                  overlap a b = false.
End Merger.

(** * What a run of the merger does with each star *)

Section Groups.
Context {num : Type} `{Arith num} `{StarShape num}.

(** The stars that [a] takes in during one run of the inner loop, in the
    order of the loop. *)
Fixpoint absorbed (a : star num) (rest : list (star num)) : list (star num) :=
  match rest with
  | [] => []
  | b :: rest' =>
      if overlap a b then b :: absorbed (merge a b) rest'
      else absorbed a rest'
  end.

(** For each star that the outer loop reaches: the star and the stars it
    takes in.  The fuel is that of the outer loop. *)
Fixpoint groups (fuel : nat) (l : list (star num))
  : list (star num * list (star num)) :=
  match l with
  | [] => []
  | a :: rest =>
      match fuel with
      | O => []
      | S fuel' => (a, absorbed a rest) :: groups fuel' (absorb a rest).2
      end
  end.

(** The star that a group ends as, and the stars it is made of. *)
Definition merged (g : star num * list (star num)) : star num :=
  foldl merge g.1 g.2.

Definition members (g : star num * list (star num)) : list (star num) :=
  g.1 :: g.2.
End Groups.

(** * The force kernel ([thread_fn], lines 200-229) *)

(** [#define G 1], [#define NUM_WORKER_THREADS 4]. *)
Definition G : Z := 1.
Definition NUM_WORKER_THREADS : Z := 4.

(** Line 201: the stars a worker with number [num] works on. *)
Definition owns (num : Z) (i : nat) : bool :=
  (Z.rem (Z.of_nat i) NUM_WORKER_THREADS =? num)%Z.

Section Kernel.
Context {num : Type} `{Arith num}.

(** Lines 206-220: the force of star [sj] on star [si]. *)
Definition pair_force (si sj : star num) : vec2d num :=
  let m1 := mass si in
  let m2 := mass sj in
  let diff := vsub (pos si) (pos sj) in
  let dist := magnitude diff in
  let diff := normalized diff in
  vdiv (vmul (vmul (vmul (vneg diff) (of_Z G)) m1) m2) (pow2 dist).

(** The loop over [j], lines 202-224. *)
Fixpoint force_loop (fuel i j : nat) (stars : list (star num))
  : option (list (star num)) :=
  if decide (j < length stars) then
    match fuel with
    | O => None
    | S fuel' =>
        if decide (i = j) then force_loop fuel' i (S j) stars
        else
          match stars !! i, stars !! j with
          | Some si, Some sj =>
              force_loop fuel' i (S j)
                (<[i := addForce si (pair_force si sj)]> stars)
          | _, _ => None
          end
    end
  else Some stars.

(** [#define DT 0.04]. *)
Definition DT : num := of_Z 4 ⊘ of_Z 100.

(** The loop over [i], lines 200-229, of the worker with number [id]: for
    each star it owns, the loop over [j] and then [update]. *)
Fixpoint thread_loop (fuel i : nat) (id : Z) (stars : list (star num))
  : option (list (star num)) :=
  if decide (i < length stars) then
    match fuel with
    | O => None
    | S fuel' =>
        if owns id i then
          match force_loop (length stars) i 0 stars with
          | Some stars' =>
              match stars' !! i with
              | Some si => thread_loop fuel' (S i) id (<[i := update si DT]> stars')
              | None => None
              end
          | None => None
          end
        else thread_loop fuel' (S i) id stars
    end
  else Some stars.

(** One pass of [thread_fn] between two waits, the worker running alone. *)
Definition thread_fn (id : Z) (stars : list (star num))
  : option (list (star num)) :=
  thread_loop (length stars) 0 id stars.

(** The stars at the indices from [j] on, star [i] left out. *)
Definition others_from (i j : nat) (stars : list (star num)) : list (star num) :=
  drop j (take i stars) ++ drop (j `max` S i) stars.

(** The forces that star [si] at index [i] receives in one run of the loop,
    in the order of the loop. *)
Definition contributions (i : nat) (si : star num) (stars : list (star num))
  : list (vec2d num) :=
  pair_force si <$> (take i stars ++ drop (S i) stars).
End Kernel.

(** * The spawner ([addRandomGalaxy], lines 234-269) *)

(** [sin], [cos] and [M_PI * 2] of <cmath>. *)
Class Libm (num : Type) := {
  m_sin : num -> num;
  m_cos : num -> num;
  m_two_pi : num
}.

#[export] Instance R_libm : Libm R := {|
  m_sin := sin;
  m_cos := cos;
  m_two_pi := (2 * PI)%R
|}.

(** The values that the generator behind [rand] and [drand] hands out: the
    [n]-th integer of [rand()] and the [n]-th sample of the unit interval
    behind [drand]. *)
Record entropy (num : Type) := Entropy {
  rand_at : nat -> Z;
  unit_at : nat -> num
}.
Arguments Entropy {num} _ _.
Arguments rand_at {num} _ _.
Arguments unit_at {num} _ _.

(** How many values of each kind have been taken. *)
Record rng_state := RngState { rand_count : nat; unit_count : nat }.

Definition Rand (A : Type) : Type := rng_state -> A * rng_state.

#[export] Instance Rand_ret : MRet Rand := fun A a st => (a, st).
#[export] Instance Rand_bind : MBind Rand :=
  fun A B f m st => let '(a, st') := m st in f a st'.

Section Spawner.
Context {num : Type} {AR : Arith num} {LM : Libm num}.
Variable E : entropy num.

Definition rand : Rand Z :=
  fun st => (rand_at E (rand_count st),
             RngState (S (rand_count st)) (unit_count st)).

(** Modelled from the spec: [drand(lo, hi)] (util.hh), the uniform draw
    [U(lo, hi)] of section 4.2, here the next sample [u] of the unit
    interval scaled to [lo + (hi - lo) * u]. *)
Definition drand (lo hi : num) : Rand num :=
  fun st => (lo ⊕ (hi ⊖ lo) ⊗ unit_at E (unit_count st),
             RngState (rand_count st) (S (unit_count st))).

(** The literals [0.25] and [1.25]. *)
Definition quarter : num := of_Z 1 ⊘ of_Z 4.
Definition five_quarters : num := of_Z 5 ⊘ of_Z 4.

(** Lines 253-267: the star built from the draws of one iteration, [d1] and
    [d2] being the two factors of [point_radius]. *)
Definition make_star (center : vec2d num) (direction angle d1 d2 speed : num)
  : star num :=
  let point_radius := d1 ⊗ d2 in
  let x := point_radius ⊗ m_sin angle in
  let y := point_radius ⊗ m_cos angle in
  let pos := Vec2d x y in
  let vel :=
    vmul (vmul (vmul (Vec2d (n_neg (m_cos angle)) (m_sin angle))
                     (n_sqrt point_radius)) direction) speed in
  new_star (of_Z 10 ⊘ n_sqrt (magnitude pos)) (vadd pos center) vel.

(** The loop of lines 249-268, [n] iterations to go; the three [rand()] of
    the colour are drawn and dropped. *)
Fixpoint spawn_loop (n : nat) (radius : num) (center : vec2d num)
  (direction : num) (stars : list (star num)) : Rand (list (star num)) :=
  match n with
  | O => mret stars
  | S n' =>
      angle ← drand (of_Z 0) m_two_pi;
      d1 ← drand (of_Z 0) (n_sqrt radius);
      d2 ← drand (of_Z 0) (n_sqrt radius);
      speed ← drand quarter five_quarters;
      _ ← rand; _ ← rand; _ ← rand;
      spawn_loop n' radius center direction
        (stars ++ [make_star center direction angle d1 d2 speed])
  end.

Definition star_count (r : Z) : Z := (Z.rem r 500 + 500)%Z.

Definition pick_direction (r : Z) : num :=
  if (Z.rem r 2 =? 0)%Z then of_Z (-1) else of_Z 1.

Definition addRandomGalaxy (center_x center_y : num) (stars : list (star num))
  : Rand (list (star num)) :=
  r ← rand;
  let count := star_count r in
  radius ← drand (of_Z 50) (of_Z 200);
  let center := Vec2d center_x center_y in
  r2 ← rand;
  let direction := pick_direction r2 in
  spawn_loop (Z.to_nat count) radius center direction stars.

(** The star of the [k]-th iteration of a loop that starts with [u] samples
    taken: four samples for each star. *)
Definition loop_star (radius : num) (center : vec2d num) (direction : num)
  (u k : nat) : star num :=
  make_star center direction
    (of_Z 0 ⊕ (m_two_pi ⊖ of_Z 0) ⊗ unit_at E (u + 4 * k))
    (of_Z 0 ⊕ (n_sqrt radius ⊖ of_Z 0) ⊗ unit_at E (u + 4 * k + 1))
    (of_Z 0 ⊕ (n_sqrt radius ⊖ of_Z 0) ⊗ unit_at E (u + 4 * k + 2))
    (quarter ⊕ (five_quarters ⊖ quarter) ⊗ unit_at E (u + 4 * k + 3)).

(** The base radius, the direction and the stars of a call that starts in
    the state [st]. *)
Definition base_radius (st : rng_state) : num :=
  of_Z 50 ⊕ (of_Z 200 ⊖ of_Z 50) ⊗ unit_at E (unit_count st).

Definition galaxy_direction (st : rng_state) : num :=
  pick_direction (rand_at E (S (rand_count st))).

Definition galaxy_count (st : rng_state) : nat :=
  Z.to_nat (star_count (rand_at E (rand_count st))).

Definition galaxy (center_x center_y : num) (st : rng_state)
  : list (star num) :=
  loop_star (base_radius st) (Vec2d center_x center_y) (galaxy_direction st)
            (S (unit_count st))
  <$> seq 0 (galaxy_count st).
End Spawner.


(** * The creation of the workers ([main], lines 75-79; [thread_fn], line 194)

    Every worker is handed the address of the loop variable [i] of [main]
    and reads its number from there when it starts to run, which can be at
    any time after its creation: while [main] is still in the loop, or
    later, when [i] is gone and the memory holds whatever has been put
    there. *)

Inductive main_pc := AtCreate | AtIncr | LoopDone.

(** [ids]: one entry for each thread created so far, [None] until the thread
    has executed line 194. *)
Record launch := Launch {
  loop_pc : main_pc;
  loop_i : Z;
  ids : list (option Z)
}.

Inductive launch_event :=
| MainStep
| WorkerRead (k : nat)
| WorkerReadLate (k : nat) (v : Z).

(** One step of [main] (test and [pthread_create], or [i++]; past the loop
    [main] goes on with the frames and has no [i] any more), or line 194 run
    by the worker [k]: while [i] is alive ([WorkerRead]), or after [main] has
    left the loop ([WorkerReadLate], with the value [v] found in the
    memory). *)
Definition launch_exec (s : launch) (e : launch_event) : option launch :=
  match e with
  | MainStep =>
      match loop_pc s with
      | AtCreate =>
          if (loop_i s <? NUM_WORKER_THREADS)%Z
          then Some (Launch AtIncr (loop_i s) (ids s ++ [None]))
          else Some (Launch LoopDone (loop_i s) (ids s))
      | AtIncr => Some (Launch AtCreate (loop_i s + 1) (ids s))
      | LoopDone => Some s
      end
  | WorkerRead k =>
      match loop_pc s, ids s !! k with
      | LoopDone, _ => None
      | _, Some None =>
          Some (Launch (loop_pc s) (loop_i s) (<[k := Some (loop_i s)]> (ids s)))
      | _, _ => None
      end
  | WorkerReadLate k v =>
      match loop_pc s, ids s !! k with
      | LoopDone, Some None =>
          Some (Launch LoopDone (loop_i s) (<[k := Some v]> (ids s)))
      | _, _ => None
      end
  end.

Fixpoint launch_run (s : launch) (trace : list launch_event) : option launch :=
  match trace with
  | [] => Some s
  | e :: trace' =>
      match launch_exec s e with
      | Some s' => launch_run s' trace'
      | None => None
      end
  end.

Definition launch_init : launch := Launch AtCreate 0 [].

(** The workers (by position in the order of creation) that write star [i]
    when they carry the numbers [nums]. *)
Fixpoint writers_from (k : nat) (nums : list Z) (i : nat) : list nat :=
  match nums with
  | [] => []
  | n :: nums' =>
      if owns n i then k :: writers_from (S k) nums' i
      else writers_from (S k) nums' i
  end.

Definition writers (nums : list Z) (i : nat) : list nat := writers_from 0 nums i.

(** What holds all through the start-up: [main] has created as many workers
    as its [i] says. *)
Definition launch_inv (s : launch) : Prop :=
  match loop_pc s with
  | AtCreate => Z.of_nat (length (ids s)) = loop_i s /\ (0 <= loop_i s <= 4)%Z
  | AtIncr => Z.of_nat (length (ids s)) = (loop_i s + 1)%Z /\ (0 <= loop_i s < 4)%Z
  | LoopDone => Z.of_nat (length (ids s)) = loop_i s /\ loop_i s = 4%Z
  end.

(** * The barrier protocol ([updateStars], lines 188-189; [thread_fn],
      lines 197-198)

    One coordinator (the frame loop) and [W] workers share a POSIX barrier
    initialised for [W + 1] threads: a thread that calls
    [pthread_barrier_wait] blocks until [W + 1] threads have called it, then
    all of them return and the barrier starts over. *)

Inductive coord_pc :=
| CFrame (f : nat)     (** frame [f]: events, purge, merge phase *)
| CWait1 (f : nat)     (** blocked in the wait of line 188 *)
| CBetween (f : nat)   (** back from line 188, about to call line 189 *)
| CWait2 (f : nat).    (** blocked in the wait of line 189 *)

Inductive worker_pc :=
| WReady (n : nat)     (** about to call the wait of line 198, [n] passes done *)
| WWait (n : nat)      (** blocked in the wait of line 198 *)
| WWork (n : nat).     (** in the loops of lines 200-229, pass [n + 1] *)

Record protocol := Protocol { coord : coord_pc; workers : list worker_pc }.

Inductive event :=
| CoordArrive
| WorkerArrive (k : nat)
| WorkerFinish (k : nat).

Definition coord_blocked (c : coord_pc) : bool :=
  match c with CWait1 _ | CWait2 _ => true | _ => false end.

Definition worker_blocked (w : worker_pc) : bool :=
  match w with WWait _ => true | _ => false end.

(** The counter of the barrier: the threads blocked in it. *)
Definition arrived (s : protocol) : nat :=
  (if coord_blocked (coord s) then 1 else 0)
  + length (filter (fun w => worker_blocked w = true) (workers s)).

(** Where a thread continues when its wait returns. *)
Definition coord_return (c : coord_pc) : coord_pc :=
  match c with
  | CFrame f | CWait1 f => CBetween f
  | CBetween f | CWait2 f => CFrame (S f)
  end.

Definition coord_release (c : coord_pc) : coord_pc :=
  if coord_blocked c then coord_return c else c.

Definition worker_release (w : worker_pc) : worker_pc :=
  match w with WWait n => WWork n | _ => w end.

Definition coord_block (c : coord_pc) : coord_pc :=
  match c with
  | CFrame f => CWait1 f
  | CBetween f => CWait2 f
  | _ => c
  end.

Section Protocol.
Variable W : nat.

Definition init : protocol := Protocol (CFrame 0) (replicate W (WReady 0)).

(** One step of one thread.  A call of [pthread_barrier_wait] that makes the
    count [W + 1] releases every blocked thread and returns; any other call
    blocks. *)
Definition exec (s : protocol) (e : event) : option protocol :=
  match e with
  | CoordArrive =>
      if coord_blocked (coord s) then None
      else if decide (arrived s = W)
           then Some (Protocol (coord_return (coord s))
                               (worker_release <$> workers s))
           else Some (Protocol (coord_block (coord s)) (workers s))
  | WorkerArrive k =>
      match workers s !! k with
      | Some (WReady n) =>
          if decide (arrived s = W)
          then Some (Protocol (coord_release (coord s))
                              (<[k := WWork n]> (worker_release <$> workers s)))
          else Some (Protocol (coord s) (<[k := WWait n]> (workers s)))
      | _ => None
      end
  | WorkerFinish k =>
      match workers s !! k with
      | Some (WWork n) =>
          Some (Protocol (coord s) (<[k := WReady (S n)]> (workers s)))
      | _ => None
      end
  end.

Fixpoint run (s : protocol) (trace : list event) : option protocol :=
  match trace with
  | [] => Some s
  | e :: trace' =>
      match exec s e with
      | Some s' => run s' trace'
      | None => None
      end
  end.
End Protocol.

(** The number of releases of the barrier so far, read off the coordinator. *)
Definition generation (c : coord_pc) : nat :=
  match c with
  | CFrame f | CWait1 f => 2 * f
  | CBetween f | CWait2 f => 2 * f + 1
  end.

(** What the workers have done when the barrier has been released [g]
    times. *)
Definition worker_at (g : nat) (w : worker_pc) : Prop :=
  match w with
  | WReady n | WWait n => n = g
  | WWork n => S n = g
  end.

Definition protocol_inv (W : nat) (s : protocol) : Prop :=
  length (workers s) = W
  /\ Forall (worker_at (generation (coord s))) (workers s).

(** What a step that releases the barrier leads to: the coordinator is one
    generation on, and every worker is at work, released at the generation
    before. *)
Definition released (s s' : protocol) : Prop :=
  generation (coord s') = S (generation (coord s))
  /\ Forall (fun w => w = WWork (generation (coord s))) (workers s').

(** * The coordinator's part of a frame ([main], lines 136-148) *)

Definition frame {num : Type} `{Arith num} `{StarShape num}
  (stars : list (star num))
  : option (list (star num)) :=
  match purge stars with
  | Some stars' => updateStars stars'
  | None => None
  end.

(** * The controls of the frame loop ([main], lines 91-134) *)

(** What a frame reads from SDL: whether the left button is down, where the
    pointer is, and the four arrow keys. *)
Record controls := Controls {
  button : bool;
  mouse_x : Z;
  mouse_y : Z;
  key_up : bool;
  key_down : bool;
  key_right : bool;
  key_left : bool
}.

(** The variables that the controls change: [mouse_up] of [main] and the
    offset of the view. *)
Record view := View { mouse_up : bool; x_offset : Z; y_offset : Z }.

(** An [int] of the source: a result outside its range is not defined. *)
Definition INT_MIN : Z := (-2147483648)%Z.
Definition INT_MAX : Z := 2147483647%Z.

Definition int_of (z : Z) : option Z :=
  if ((INT_MIN <=? z) && (z <=? INT_MAX))%Z then Some z else None.

(** Lines 95-107: the new [mouse_up] and, where [addRandomGalaxy] is called,
    its two arguments before their conversion to [float]. *)
Definition mouse_step (c : controls) (v : view)
  : option (view * option (Z * Z)) :=
  if button c then
    if mouse_up v then
      cx ← int_of (mouse_x c - x_offset v);
      cy ← int_of (mouse_y c - y_offset v);
      Some (View false (x_offset v) (y_offset v), Some (cx, cy))
    else Some (v, None)
  else Some (View true (x_offset v) (y_offset v), None).

(** Lines 112-134, the four keys in the order of the source.  The shifts of
    the bitmap (bitmap.hh) are not part of the sources at hand. *)
Definition key_step (c : controls) (v : view) : option view :=
  y1 ← (if key_up c then int_of (y_offset v + 1) else Some (y_offset v));
  y2 ← (if key_down c then int_of (y1 - 1) else Some y1);
  x1 ← (if key_right c then int_of (x_offset v - 1) else Some (x_offset v));
  x2 ← (if key_left c then int_of (x1 + 1) else Some x1);
  Some (View (mouse_up v) x2 y2).

(** The controls of one frame, and of a sequence of frames with the calls of
    [addRandomGalaxy] that they make. *)
Definition controls_step (c : controls) (v : view)
  : option (view * option (Z * Z)) :=
  '(v1, click) ← mouse_step c v;
  v2 ← key_step c v1;
  Some (v2, click).

Fixpoint controls_run (cs : list controls) (v : view)
  : option (view * list (Z * Z)) :=
  match cs with
  | [] => Some (v, [])
  | c :: cs' =>
      '(v1, click) ← controls_step c v;
      '(v2, clicks) ← controls_run cs' v1;
      Some (v2, option_list click ++ clicks)
  end.

(** The state in which [main] enters its loop. *)
Definition view_init : view := View true 0 0.

(** The frames in which the button goes down: it is down, and it was not in
    the frame before ([was] for the frame before the first one). *)
Fixpoint presses (was : bool) (cs : list controls) : list controls :=
  match cs with
  | [] => []
  | c :: cs' =>
      (if button c && negb was then [c] else []) ++ presses (button c) cs'
  end.

(** In how many frames a key is down. *)
Definition held (key : controls -> bool) (cs : list controls) : Z :=
  Z.of_nat (length (filter (fun c => key c = true) cs)).

(** * Drawing a star ([drawStar], lines 273-292)

    [drawStar] computes in binary32 but for two expressions, which C++
    evaluates in double precision: the loop bound [radius*1.1] (the literal
    is a double) and [sqrt(pow(x, 2) + pow(y, 2))] (the results of [pow] are
    doubles), rounded when it is stored in [float dist].  The embedding
    takes these two and the step [x++] of a loop counter from an interface
    of their own, next to [Arith].  [bitmap::set] (bitmap.hh) is not part of
    the sources at hand: the model lists the coordinates it is called with,
    in the order of the calls. *)
Class Draw (num : Type) := {
  in_bound : num -> num -> bool;
  distance : num -> num -> num;
  next : num -> num
}.

(** ** In binary32 and binary64 *)

Definition prec64 : Z := 53.
Definition emax64 : Z := 1024.

(** A [float] as a double (exact), and a double stored in a [float]
    (rounded). *)
Definition to_binary64 (x : float) : float :=
  match x with
  | S754_finite s m e => binary_normalize prec64 emax64 (cond_Zopp s (Zpos m)) e s
  | _ => x
  end.

Definition to_binary32 (d : float) : float :=
  match d with
  | S754_finite s m e => binary_normalize prec emax (cond_Zopp s (Zpos m)) e s
  | _ => d
  end.

(** The double of the literal [1.1]. *)
Definition double_1_1 : float := S754_finite false 4953959590107546 (-52).

#[export] Instance float_draw : Draw float := {|
  in_bound := fun x radius =>
    SFleb (to_binary64 x) (SFmul prec64 emax64 (to_binary64 radius) double_1_1);
  distance := fun x y =>
    to_binary32
      (SFsqrt prec64 emax64
         (SFadd prec64 emax64
            (SFmul prec64 emax64 (to_binary64 x) (to_binary64 x))
            (SFmul prec64 emax64 (to_binary64 y) (to_binary64 y))));
  next := fun x => x ⊕ of_Z 1
|}.

(** ** Over the real numbers

    Exact arithmetic stands for both precisions.  The counters stay those of
    the source: a [float] that counts up from 0 holds 0, 1, 2, ... exactly
    as far as 2^24 and stays there, since 2^24 + 1 is no binary32 number and
    rounds back to 2^24. *)
Definition Rleb (a b : R) : bool := if Rle_dec a b then true else false.

Definition counter_max : R := 16777216%R.

#[export] Instance R_draw : Draw R := {|
  in_bound := fun x radius => Rleb x (radius * (11 / 10))%R;
  distance := fun x y => sqrt (x * x + y * y)%R;
  next := fun x => if Rlt_dec x counter_max then (x + 1)%R else x
|}.

Section Drawing.
Context {num : Type} `{Arith num} `{StarShape num} `{Draw num}.

Definition pixel : Type := (num * num)%type.

(** Lines 285-288. *)
Definition plot (v : view) (center_x center_y x y : num) : list pixel :=
  [ (center_x ⊕ x ⊕ of_Z (x_offset v), center_y ⊕ y ⊕ of_Z (y_offset v));
    (center_x ⊕ x ⊕ of_Z (x_offset v), center_y ⊖ y ⊕ of_Z (y_offset v));
    (center_x ⊖ x ⊕ of_Z (x_offset v), center_y ⊖ y ⊕ of_Z (y_offset v));
    (center_x ⊖ x ⊕ of_Z (x_offset v), center_y ⊕ y ⊕ of_Z (y_offset v)) ].

(** The inner loop, lines 280-290, from [y] on. *)
Fixpoint draw_column (fuel : nat) (v : view)
  (center_x center_y radius x y : num) : option (list pixel) :=
  match fuel with
  | O => None
  | S fuel' =>
      if in_bound y radius then
        let dist := distance x y in
        rest ← draw_column fuel' v center_x center_y radius x (next y);
        Some ((if n_ltb dist radius then plot v center_x center_y x y else [])
              ++ rest)
      else Some []
  end.

(** The outer loop, lines 279-291, from [x] on; every run of the inner loop
    has [inner] steps to go. *)
Fixpoint draw_rows (inner fuel : nat) (v : view)
  (center_x center_y radius x : num) : option (list pixel) :=
  match fuel with
  | O => None
  | S fuel' =>
      if in_bound x radius then
        column ← draw_column inner v center_x center_y radius x (of_Z 0);
        rest ← draw_rows inner fuel' v center_x center_y radius (next x);
        Some (column ++ rest)
      else Some []
  end.

Definition drawStar (fuel : nat) (v : view) (s : star num)
  : option (list pixel) :=
  let center_x := vec_x (pos s) in
  let center_y := vec_y (pos s) in
  let radius := radius s in
  draw_rows fuel fuel v center_x center_y radius (of_Z 0).
End Drawing.

(** A pixel moved by [dx] and [dy], and a list of pixels moved so. *)
Definition moved (dx dy : Z) (p : R * R) : R * R :=
  (p.1 + IZR dx, p.2 + IZR dy)%R.

Definition scrolled (dx dy : Z) (pts : list (R * R)) : list (R * R) :=
  moved dx dy <$> pts.

(** * Sample collections *)

(** A radius for the sample collections: [sqrt(mass) / 10], one of the
    increasing functions that section 3 allows.  With it the stars of
    masses 10 and 20 have the radii 0.32 and 0.45, and those of masses 100,
    400 and 2500 the radii 1, 2 and 5. *)
Definition sample_shape {num : Type} `{Arith num} : StarShape num :=
  {| mass_radius := fun m => n_sqrt m ⊘ of_Z 10 |}.

(** A star at rest on the x axis. *)
Definition at_rest (m : Z) (x : float) : star float :=
  new_star (float_of_Z m) (Vec2d x (float_of_Z 0)) vzero.

(** Masses 10 and 20, half a unit apart. *)
Definition light_star : star float := at_rest 10 (float_of_Z 0).
Definition heavy_star : star float :=
  at_rest 20 (float_of_Z 1 ⊘ float_of_Z 2).

(** Three stars on a line, at 0, 2.2 and 1, the last one the heaviest. *)
Definition left_star : star float := at_rest 100 (float_of_Z 0).
Definition far_star : star float :=
  at_rest 100 (float_of_Z 22 ⊘ float_of_Z 10).
Definition near_star : star float := at_rest 400 (float_of_Z 1).
Definition trio : list (star float) := [left_star; far_star; near_star].

(** A star whose velocity is NaN and whose position is (1, 2), and a star
    whose position is at infinity. *)
Definition adrift_star : star float :=
  Star (float_of_Z 1) (Vec2d (float_of_Z 1) (float_of_Z 2))
       (Vec2d S754_nan S754_nan) vzero.
Definition escaped_star : star float :=
  Star (float_of_Z 1) (Vec2d (S754_infinity false) (float_of_Z 0))
       vzero vzero.
Definition broken_star : star float :=
  Star (float_of_Z 1) (Vec2d S754_nan (float_of_Z 0)) vzero vzero.

(** A star of mass 1 at the origin whose velocity is infinite along x. *)
Definition runaway_star : star float :=
  Star (float_of_Z 1) (Vec2d (float_of_Z 0) (float_of_Z 0))
       (Vec2d (S754_infinity false) (float_of_Z 0)) vzero.

(** Masses 10 and 20, five units apart. *)
Definition apart_star : star float := at_rest 20 (float_of_Z 5).

(** Over the reals: a star at rest at the origin, and two stars at distance
    5, of masses 10 and 20. *)
Definition resting (m : R) : star R := new_star m vzero vzero.
Definition sun : star R := new_star 10%R (Vec2d 0%R 0%R) vzero.
Definition planet : star R := new_star 20%R (Vec2d 3%R 4%R) vzero.

(** A schedule of the start-up: the first worker runs line 194 only after
    [main] has incremented [i], the second one right after its creation. *)
Definition late_reader : list launch_event :=
  [MainStep; MainStep; WorkerRead 0; MainStep; WorkerRead 1; MainStep;
   MainStep; WorkerRead 2; MainStep; MainStep; WorkerRead 3; MainStep;
   MainStep].

(** A schedule in which the first worker runs line 194 only after [main]
    has left the loop, and finds 7 where [i] was. *)
Definition sleepy_reader : list launch_event :=
  [MainStep; MainStep; MainStep; WorkerRead 1; MainStep; MainStep;
   WorkerRead 2; MainStep; MainStep; WorkerRead 3; MainStep; MainStep;
   WorkerReadLate 0 7].

(** A schedule in which every worker runs line 194 right after its
    creation. *)
Definition prompt_readers : list launch_event :=
  [MainStep; WorkerRead 0; MainStep; MainStep; WorkerRead 1; MainStep;
   MainStep; WorkerRead 2; MainStep; MainStep; WorkerRead 3; MainStep;
   MainStep].

(** The first frame of a coordinator with two workers, up to the last
    arrival at the second wait. *)
Definition first_round : list event :=
  [WorkerArrive 0; WorkerArrive 1; CoordArrive; CoordArrive;
   WorkerFinish 0; WorkerFinish 1; WorkerArrive 0].

(** Draws for the spawner over the reals: every [rand()] gives 0, the first
    sample is 1/3 and all the later ones are 1/4. *)
Definition quarter_draws : entropy R :=
  Entropy (fun _ => 0%Z)
          (fun n => match n with O => (1 / 3)%R | S _ => (1 / 4)%R end).

(** Draws for the spawner in binary32: every [rand()] and every sample is
    0. *)
Definition zero_draws : entropy float :=
  Entropy (fun _ => 0%Z) (fun _ => S754_zero false).

(** [sin], [cos] and [2 * pi] in binary32 as far as [zero_draws] needs
    them: the only angle it draws is 0, where [sin] is its argument and
    [cos] is 1. *)
Definition small_angle : Libm float := {|
  m_sin := fun a => a;
  m_cos := fun _ => float_of_Z 1;
  m_two_pi := S754_finite false 13176795 (-21)
|}.

(** A star of mass 20 at the place of [light_star]. *)
Definition twin_star : star float := at_rest 20 (float_of_Z 0).

(** Four frames of the controls: the button goes down at (400, 300) with
    LEFT held, stays down while the pointer moves, is released with UP held,
    and goes down again at (100, 50). *)
Definition two_clicks : list controls :=
  [Controls true 400 300 false false false true;
   Controls true 410 300 false false false false;
   Controls false 410 300 true false false false;
   Controls true 100 50 false false false false].

(** A frame in which the button goes down at (400, 300) with LEFT held. *)
Definition click_left : controls :=
  Controls true 400 300 false false false true.

(** A frame with LEFT held and the button up. *)
Definition left_key : controls := Controls false 0 0 false false false true.

(** * Proofs *)

(** ** Lists indexed like a vector *)

Lemma take_delete_same {A : Type} (l : list A) (i : nat) :
  take i (delete i l) = take i l.
Proof.
  revert i. induction l as [|a l IH]; intros [|i]; simpl; try reflexivity.
  by rewrite IH.
Qed.

Lemma drop_delete_same {A : Type} (l : list A) (i : nat) :
  drop i (delete i l) = drop (S i) l.
Proof.
  revert i. induction l as [|a l IH]; intros [|i]; simpl; try reflexivity.
  apply IH.
Qed.

(** ** The NaN purge *)

Section PurgeProofs.
Context {num : Type} `{Arith num}.

Lemma purge_loop_filter (fuel i : nat) (stars : list (star num)) :
  length stars - i <= fuel -> i <= length stars ->
  purge_loop fuel i stars
  = Some (take i stars ++ filter (fun s => nan_pos s = false) (drop i stars)).
Proof.
  revert i stars. induction fuel as [|fuel IH]; intros i stars Hfuel Hi.
  - simpl. destruct (decide (i < length stars)) as [?|Hge]; [lia|].
    rewrite drop_ge by lia. rewrite take_ge by lia. by rewrite app_nil_r.
  - simpl. destruct (decide (i < length stars)) as [Hlt|Hge].
    + destruct (lookup_lt_is_Some_2 stars i Hlt) as [s Hs]. rewrite Hs.
      rewrite (drop_S _ _ _ Hs).
      destruct (nan_pos s) eqn:Hnan.
      * rewrite IH.
        -- rewrite take_delete_same, drop_delete_same.
           rewrite filter_cons_False; [done|]. by rewrite Hnan.
        -- rewrite length_delete by eauto. lia.
        -- rewrite length_delete by eauto. lia.
      * rewrite IH by lia.
        rewrite (take_S_r _ _ _ Hs), filter_cons_True by done.
        by rewrite <- app_assoc.
    + rewrite drop_ge by lia. rewrite take_ge by lia. by rewrite app_nil_r.
Qed.

(** The purge always completes, and it is the filter that keeps the stars
    whose position passes the test of line 139, in their order. *)
Lemma purge_filter (stars : list (star num)) :
  purge stars = Some (filter (fun s => nan_pos s = false) stars).
Proof.
  unfold purge. rewrite purge_loop_filter by lia. by rewrite take_0, drop_0.
Qed.
End PurgeProofs.

(** ** Comparisons of binary32 numbers *)

Lemma SFeqb_self (f : float) : SFeqb f f = negb (is_nan f).
Proof.
  destruct f as [s|s| |s m e]; unfold SFeqb; simpl.
  - reflexivity.
  - by destruct s.
  - reflexivity.
  - destruct s; rewrite Z.compare_refl, Pos.compare_cont_refl; reflexivity.
Qed.

Lemma float_neqb_self (f : float) : n_neqb f f = is_nan f.
Proof. simpl. rewrite SFeqb_self. apply negb_involutive. Qed.

Lemma nan_pos_float (s : star float) :
  nan_pos s = is_nan (vec_x (pos s)) || is_nan (vec_y (pos s)).
Proof. unfold nan_pos. by rewrite !float_neqb_self. Qed.

(** ** The collision merger *)

Section MergerProofs.
Context {num : Type} `{Arith num} `{StarShape num}.

Lemma absorb_length (a : star num) (rest : list (star num)) :
  length (absorb a rest).2 <= length rest.
Proof.
  revert a. induction rest as [|b rest IH]; intros a; simpl; [lia|].
  destruct (overlap a b).
  - specialize (IH (merge a b)). lia.
  - specialize (IH a). destruct (absorb a rest) as [a' r]. simpl in *. lia.
Qed.

(** A run of the inner loop that merges nothing found no overlap. *)
Lemma absorb_same_length (a : star num) (rest : list (star num)) :
  length (absorb a rest).2 = length rest ->
  absorb a rest = (a, rest) /\ Forall (fun b => overlap a b = false) rest.
Proof.
  revert a. induction rest as [|b rest IH]; intros a; simpl; [by auto|].
  destruct (overlap a b) eqn:Hab.
  - intros Hlen. pose proof (absorb_length (merge a b) rest). lia.
  - specialize (IH a). destruct (absorb a rest) as [a' r]. simpl in *.
    intros Hlen. destruct IH as [IH1 IH2]; [lia|].
    injection IH1 as -> ->. split; [done|]. by constructor.
Qed.

Lemma absorb_no_overlap (a : star num) (rest : list (star num)) :
  Forall (fun b => overlap a b = false) rest -> absorb a rest = (a, rest).
Proof.
  induction 1 as [|b rest Hb _ IH]; simpl; [done|]. by rewrite Hb, IH.
Qed.

(** The inner loop, started at [j] with the stars [mid] between [i] and [j]
    already passed, is [absorb] on the stars from [j] on. *)
Lemma merge_inner_absorb (rest : list (star num)) :
  forall fuel pre a mid,
    length rest <= fuel ->
    merge_inner fuel (length pre) (length pre + S (length mid))
      (pre ++ a :: mid ++ rest)
    = Some (pre ++ (absorb a rest).1 :: mid ++ (absorb a rest).2).
Proof.
  induction rest as [|b rest IH]; intros fuel pre a mid Hfuel.
  - assert (Hlen : ¬ (length pre + S (length mid)
                      < length (pre ++ a :: mid ++ []))).
    { rewrite length_app. simpl. rewrite length_app. simpl. lia. }
    destruct fuel; simpl; by destruct (decide _).
  - destruct fuel as [|fuel]; [simpl in Hfuel; lia|].
    assert (Hlt : length pre + S (length mid)
                  < length (pre ++ a :: mid ++ b :: rest)).
    { rewrite length_app. simpl. rewrite length_app. simpl. lia. }
    assert (Hi : (pre ++ a :: mid ++ b :: rest) !! length pre = Some a)
      by (by apply list_lookup_middle).
    assert (Hj : (pre ++ a :: mid ++ b :: rest) !! (length pre + S (length mid))
                 = Some b).
    { rewrite lookup_app_r by lia.
      replace (length pre + S (length mid) - length pre) with (S (length mid))
        by lia.
      simpl. by apply list_lookup_middle. }
    simpl. destruct (decide _) as [_|?]; [|done].
    rewrite Hi, Hj. simpl in Hfuel.
    destruct (overlap a b) eqn:Hab.
    + replace (<[length pre:=merge a b]> (pre ++ a :: mid ++ b :: rest))
        with ((pre ++ merge a b :: mid) ++ b :: rest).
      2:{ rewrite insert_app_r_alt by lia. rewrite Nat.sub_diag. simpl.
          by rewrite <- app_assoc. }
      replace (length pre + S (length mid))
        with (length (pre ++ merge a b :: mid))
        by (rewrite length_app; simpl; lia).
      rewrite delete_middle.
      replace (length (pre ++ merge a b :: mid))
        with (length pre + S (length mid))
        by (rewrite length_app; simpl; lia).
      rewrite <- app_assoc. simpl. apply IH. lia.
    + replace (pre ++ a :: mid ++ b :: rest)
        with (pre ++ a :: (mid ++ [b]) ++ rest)
        by (by rewrite <- (app_assoc mid)).
      replace (S (length pre + S (length mid)))
        with (length pre + S (length (mid ++ [b])))
        by (rewrite length_app; simpl; lia).
      rewrite IH by lia.
      destruct (absorb a rest) as [a' r]. simpl.
      by rewrite <- (app_assoc mid).
Qed.
End MergerProofs.

Section SweepProofs.
Context {num : Type} `{Arith num} `{StarShape num}.

Lemma merge_outer_sweep (fuel : nat) :
  forall (pre tl : list (star num)),
    merge_outer fuel (length pre) (pre ++ tl)
    = (fun out => pre ++ out) <$> sweep fuel tl.
Proof.
  induction fuel as [|fuel IH]; intros pre tl.
  - destruct tl as [|a rest]; simpl.
    + destruct (decide _) as [Hlt|_]; [|done].
      rewrite length_app in Hlt. simpl in Hlt. lia.
    + destruct (decide _) as [_|Hge]; [done|].
      rewrite length_app in Hge. simpl in Hge. lia.
  - destruct tl as [|a rest]; simpl.
    + destruct (decide _) as [Hlt|_]; [|done].
      rewrite length_app in Hlt. simpl in Hlt. lia.
    + destruct (decide _) as [_|Hge].
      2:{ rewrite length_app in Hge. simpl in Hge. lia. }
      replace (S (length pre)) with (length pre + S (length (@nil (star num))))
        by (simpl; lia).
      change (pre ++ a :: rest) with (pre ++ a :: [] ++ rest).
      rewrite merge_inner_absorb.
      2:{ rewrite length_app. simpl. lia. }
      simpl.
      replace (length pre + 1) with (length (pre ++ [(absorb a rest).1]))
        by (rewrite length_app; simpl; lia).
      replace (pre ++ (absorb a rest).1 :: (absorb a rest).2)
        with ((pre ++ [(absorb a rest).1]) ++ (absorb a rest).2)
        by (by rewrite <- app_assoc).
      rewrite IH.
      destruct (sweep fuel (absorb a rest).2) as [out|]; simpl; [|done].
      by rewrite <- app_assoc.
Qed.

Lemma updateStars_sweep (stars : list (star num)) :
  updateStars stars = sweep (length stars) stars.
Proof.
  unfold updateStars.
  pose proof (merge_outer_sweep (length stars) [] stars) as Hsweep.
  simpl in Hsweep. rewrite Hsweep.
  by destruct (sweep _ _).
Qed.

Lemma sweep_total (fuel : nat) :
  forall l : list (star num),
    length l <= fuel ->
    exists out, sweep fuel l = Some out /\ length out <= length l.
Proof.
  induction fuel as [|fuel IH]; intros [|a rest] Hlen; simpl in *;
    try (by exists []); try lia.
  pose proof (absorb_length a rest) as Hr.
  destruct (IH (absorb a rest).2) as (out & -> & Hout); [lia|].
  eexists. split; [done|]. simpl. lia.
Qed.

Lemma overlap_free_cons (a : star num) (rest : list (star num)) :
  overlap_free (a :: rest)
  <-> Forall (fun b => overlap a b = false) rest /\ overlap_free rest.
Proof.
  split.
  - intros Hfree. split.
    + apply Forall_lookup. intros j b Hb.
      apply (Hfree 0 (S j) a b); [lia|done|done].
    + intros i j x y Hij Hx Hy. apply (Hfree (S i) (S j) x y); [lia|done|done].
  - intros [Ha Hrest] i j x y Hij Hx Hy.
    destruct j as [|j]; [lia|]. simpl in Hy.
    destruct i as [|i]; simpl in Hx.
    + injection Hx as <-. rewrite Forall_lookup in Ha. by apply (Ha j).
    + apply (Hrest i j); [lia|done|done].
Qed.

(** The merger leaves a collection as it is exactly when no two of its stars
    overlap. *)
Lemma sweep_fixed_iff (fuel : nat) :
  forall l : list (star num),
    length l <= fuel -> (sweep fuel l = Some l <-> overlap_free l).
Proof.
  induction fuel as [|fuel IH]; intros [|a rest] Hlen; simpl in *; try lia.
  - split; [|done]. intros _ i j x y _ Hx. by destruct i.
  - split; [|done]. intros _ i j x y _ Hx. by destruct i.
  - pose proof (absorb_length a rest) as Hr.
    destruct (sweep_total fuel (absorb a rest).2) as (out & Hout & Hlo); [lia|].
    rewrite Hout, overlap_free_cons. split.
    + intros Heq. injection Heq as Ha ->.
      destruct (absorb_same_length a rest) as [Hab Hno]; [lia|].
      split; [done|]. apply IH; [lia|]. rewrite Hab in Hout. done.
    + intros [Hno Hfree]. rewrite (absorb_no_overlap a rest Hno) in Hout |- *.
      simpl in *. apply IH in Hfree; [|lia]. congruence.
Qed.
End SweepProofs.

(** ** Order of binary32 numbers *)

Lemma compare_cont_flip (p q : positive) :
  Pos.compare_cont Eq q p = CompOpp (Pos.compare_cont Eq p q).
Proof. apply (Pos.compare_antisym p q). Qed.

Lemma SFcompare_flip (a b : float) :
  SFcompare a b = Some Lt -> SFcompare b a = Some Gt.
Proof.
  destruct a as [sa|sa| |sa ma ea], b as [sb|sb| |sb mb eb]; simpl;
    try discriminate; try (by destruct sa); try (by destruct sb);
    try (by destruct sa, sb).
  destruct sa, sb; try discriminate; try done;
    rewrite (Z.compare_antisym ea eb), (compare_cont_flip ma mb);
    destruct (ea ?= eb)%Z; simpl; try discriminate; try done;
    destruct (Pos.compare_cont Eq ma mb); simpl; by try discriminate.
Qed.

Lemma SFltb_flip (a b : float) : SFltb a b = true -> SFltb b a = false.
Proof.
  unfold SFltb. destruct (SFcompare a b) as [[| |]|] eqn:Hab; try discriminate.
  by rewrite (SFcompare_flip a b Hab).
Qed.

Lemma SFltb_irrefl (a : float) : SFltb a a = false.
Proof.
  destruct (SFltb a a) eqn:Haa; [|done].
  by rewrite (SFltb_flip a a Haa) in Haa.
Qed.

(** ** The claims on the merger *)

(** C1: [merge a b] has the mass [mass a + mass b], the velocity
    [(mA*vA + mB*vB) / (mA + mB)] and the position of the input of larger
    mass, the first one on a tie; a run of the merger on two overlapping
    stars leaves the merged star alone, and with the masses 10 and 20 that
    star has mass 30 and sits where the star of mass 20 was. *)
Theorem merge_rule_and_scenario {SH : StarShape float} (a b : star float) :
  mass (merge a b) = mass a ⊕ mass b
  /\ vel (merge a b)
     = vdiv (vadd (smul (mass a) (vel a)) (smul (mass b) (vel b)))
            (mass a ⊕ mass b)
  /\ (n_ltb (mass a) (mass b) = true -> pos (merge a b) = pos b)
  /\ (n_ltb (mass b) (mass a) = true -> pos (merge a b) = pos a)
  /\ (mass a = mass b -> pos (merge a b) = pos a)
  /\ (overlap a b = true -> updateStars [a; b] = Some [merge a b])
  /\ (mass a = float_of_Z 10 -> mass b = float_of_Z 20 ->
      mass (merge a b) = float_of_Z 30 /\ pos (merge a b) = pos b)
  /\ (mass a = float_of_Z 20 -> mass b = float_of_Z 10 ->
      mass (merge a b) = float_of_Z 30 /\ pos (merge a b) = pos a).
Proof.
  assert (Hpos : pos (merge a b)
                 = if SFltb (mass a) (mass b) then pos b else pos a)
    by reflexivity.
  split; [reflexivity|]. split; [reflexivity|].
  split; [|split; [|split; [|split; [|split]]]].
  - intros Hlt. change (SFltb (mass a) (mass b) = true) in Hlt.
    by rewrite Hpos, Hlt.
  - intros Hlt. change (SFltb (mass b) (mass a) = true) in Hlt.
    apply SFltb_flip in Hlt. by rewrite Hpos, Hlt.
  - intros Heq. by rewrite Hpos, Heq, SFltb_irrefl.
  - intros Hab. rewrite updateStars_sweep.
    cbn [length sweep absorb]. rewrite Hab. reflexivity.
  - intros Ha Hb. split.
    + unfold merge, new_star. simpl. by rewrite Ha, Hb.
    + by rewrite Hpos, Ha, Hb.
  - intros Ha Hb. split.
    + unfold merge, new_star. simpl. by rewrite Ha, Hb.
    + by rewrite Hpos, Ha, Hb.
Qed.

Section MergerSamples.
#[local] Existing Instance sample_shape.

(** The scenario of C1 on [light_star] and [heavy_star], in both orders. *)
Lemma merge_scenario_runs :
  overlap light_star heavy_star = true
  /\ updateStars [light_star; heavy_star]
     = Some [merge light_star heavy_star]
  /\ mass (merge light_star heavy_star) = float_of_Z 30
  /\ pos (merge light_star heavy_star) = pos heavy_star
  /\ updateStars [heavy_star; light_star]
     = Some [merge heavy_star light_star]
  /\ pos (merge heavy_star light_star) = pos heavy_star.
Proof.
  assert (Hlh : overlap light_star heavy_star = true) by (vm_compute; reflexivity).
  assert (Hhl : overlap heavy_star light_star = true) by (vm_compute; reflexivity).
  destruct (merge_rule_and_scenario light_star heavy_star)
    as (_ & _ & _ & _ & _ & Hrun & Hscen & _).
  destruct (merge_rule_and_scenario heavy_star light_star)
    as (_ & _ & _ & _ & _ & Hrun' & _ & Hscen').
  destruct (Hscen eq_refl eq_refl) as [Hm Hp].
  destruct (Hscen' eq_refl eq_refl) as [_ Hp'].
  repeat split; auto.
Defined.

(** C2 as stated fails on [trio]: the run merges [left_star] and [near_star]
    into a star at 1, which overlaps [far_star] at 2.2, already passed; a
    second run merges these two. *)
Lemma one_run_leaves_overlap :
  updateStars trio = Some [merge left_star near_star; far_star]
  /\ overlap (merge left_star near_star) far_star = true
  /\ updateStars [merge left_star near_star; far_star]
     = Some [merge (merge left_star near_star) far_star].
Proof. vm_compute. repeat split; reflexivity. Qed.
End MergerSamples.

Section MergerClaims.
Context {num : Type} `{Arith num} `{StarShape num}.

(** Star [a] passes [b], then absorbs [c]: the merged star is not tested
    against [b] again, whether it overlaps it or not. *)
Lemma passed_star_not_retested (a b c : star num) :
  overlap a b = false -> overlap a c = true ->
  updateStars [a; b; c] = Some [merge a c; b].
Proof.
  intros Hab Hac. rewrite updateStars_sweep.
  cbn [length sweep absorb]. rewrite Hab. cbn [absorb]. rewrite Hac.
  reflexivity.
Qed.

(** C2, amended: a run of the merger always completes and never adds a star;
    star by star, it lets each star absorb the later stars that overlap it
    in its current state ([sweep]), and a star that has been passed is not
    tested again against a star that grows by a later merge; the run leaves
    the collection as it is exactly when no two of its stars overlap. *)
Theorem merger_fixed_points (stars : list (star num)) (a b c : star num) :
  (exists out, updateStars stars = Some out /\ length out <= length stars)
  /\ updateStars stars = sweep (length stars) stars
  /\ (overlap a b = false -> overlap a c = true ->
      updateStars [a; b; c] = Some [merge a c; b])
  /\ (updateStars stars = Some stars <-> overlap_free stars).
Proof.
  split; [|split; [|split]].
  - rewrite updateStars_sweep. by apply sweep_total.
  - apply updateStars_sweep.
  - apply passed_star_not_retested.
  - rewrite updateStars_sweep. by apply sweep_fixed_iff.
Qed.
End MergerClaims.

(** ** The claims on the NaN purge *)

Lemma frame_purged {num : Type} `{Arith num} `{StarShape num}
  (stars : list (star num)) :
  frame stars = updateStars (filter (fun s => nan_pos s = false) stars).
Proof. unfold frame. by rewrite purge_filter. Qed.

Lemma nan_pos_false (s : star float) :
  nan_pos s = false
  <-> is_nan (vec_x (pos s)) = false /\ is_nan (vec_y (pos s)) = false.
Proof. rewrite nan_pos_float. apply orb_false_iff. Qed.

Lemma not_nan_of_infinite (f : float) : is_infinite f = true -> is_nan f = false.
Proof. by destruct f. Qed.

Lemma not_nan_of_finite (f : float) : is_finite f = true -> is_nan f = false.
Proof. by destruct f. Qed.

Section PurgeSamples.
#[local] Existing Instance sample_shape.

(** A star whose velocity is NaN and whose position is finite stays in the
    collection through the check and the merge phase. *)
Lemma nan_velocity_survives :
  is_nan (vec_x (vel adrift_star)) = true
  /\ purge [adrift_star] = Some [adrift_star]
  /\ frame [adrift_star] = Some [adrift_star].
Proof. vm_compute. repeat split; reflexivity. Qed.

(** C8 as stated fails on [runaway_star]: its velocity is infinite, and it
    passes the check; [update] then moves it to an infinite position, and it
    passes the check again and is still in the collection when the merge
    phase has run. *)
Lemma infinite_values_survive :
  is_infinite (vec_x (vel runaway_star)) = true
  /\ purge [runaway_star] = Some [runaway_star]
  /\ is_infinite (vec_x (pos (update runaway_star DT))) = true
  /\ purge [update runaway_star DT] = Some [update runaway_star DT]
  /\ frame [update runaway_star DT] = Some [update runaway_star DT].
Proof. vm_compute. repeat split; reflexivity. Qed.
End PurgeSamples.

(** C8, amended: the check of the frame loop always completes and hands the
    merge phase exactly the stars of the collection whose position has no
    NaN coordinate, each as it was and in their order: a star is gone if and
    only if a coordinate of its position is NaN, whatever its velocity and
    whatever the other stars are. *)
Theorem purge_removes_nan_positions {SH : StarShape float}
  (stars : list (star float)) :
  purge stars = Some (filter placed stars)
  /\ frame stars = updateStars (filter placed stars)
  /\ (forall s, s ∈ filter placed stars <-> s ∈ stars /\ placed s)
  /\ (forall s, is_nan (vec_x (pos s)) = true \/ is_nan (vec_y (pos s)) = true ->
                s ∉ filter placed stars)
  /\ (forall s s', pos s = pos s' -> (placed s <-> placed s'))
  /\ filter placed stars `sublist_of` stars.
Proof.
  assert (Hsame : filter (fun s => nan_pos s = false) stars
                  = filter placed stars).
  { apply list_filter_iff. intros s. apply nan_pos_false. }
  split; [by rewrite purge_filter, Hsame|].
  split; [by rewrite frame_purged, Hsame|].
  split; [intros s; rewrite list_elem_of_filter; tauto|].
  split; [|split; [|apply sublist_filter]].
  - intros s Hnan [[Hx Hy] _]%list_elem_of_filter. destruct Hnan; congruence.
  - intros s s' Hpos. unfold placed. by rewrite Hpos.
Qed.

(** C10: the check removes a star only when a coordinate of its position is
    NaN; a star with an infinite coordinate (and no NaN one) stays, and so
    does a star with a finite position whose velocity is NaN. *)
Theorem purge_keeps_all_but_nan_positions (stars : list (star float)) :
  exists out,
    purge stars = Some out
    /\ (forall s, s ∈ stars -> s ∉ out ->
          is_nan (vec_x (pos s)) = true \/ is_nan (vec_y (pos s)) = true)
    /\ (forall s, s ∈ stars ->
          is_infinite (vec_x (pos s)) = true -> is_nan (vec_y (pos s)) = false ->
          s ∈ out)
    /\ (forall s, s ∈ stars ->
          is_nan (vec_x (pos s)) = false -> is_infinite (vec_y (pos s)) = true ->
          s ∈ out)
    /\ (forall s, s ∈ stars ->
          is_nan (vec_x (vel s)) = true \/ is_nan (vec_y (vel s)) = true ->
          is_finite (vec_x (pos s)) = true -> is_finite (vec_y (pos s)) = true ->
          s ∈ out).
Proof.
  exists (filter (fun s => nan_pos s = false) stars).
  split; [apply purge_filter|].
  assert (Hkeep : forall s, s ∈ stars ->
            is_nan (vec_x (pos s)) = false -> is_nan (vec_y (pos s)) = false ->
            s ∈ filter (fun s => nan_pos s = false) stars).
  { intros s Hin Hx Hy. apply list_elem_of_filter. split; [|done].
    by apply nan_pos_false. }
  split; [|split; [|split]].
  - intros s Hin Hout.
    destruct (is_nan (vec_x (pos s))) eqn:Hx; [by left|].
    destruct (is_nan (vec_y (pos s))) eqn:Hy; [by right|].
    destruct Hout. by apply Hkeep.
  - intros s Hin Hx Hy. apply Hkeep; auto using not_nan_of_infinite.
  - intros s Hin Hx Hy. apply Hkeep; auto using not_nan_of_infinite.
  - intros s Hin _ Hx Hy. apply Hkeep; auto using not_nan_of_finite.
Qed.

(** The check on a collection with a star of each kind. *)
Example purge_sample :
  purge [adrift_star; broken_star; escaped_star]
  = Some [adrift_star; escaped_star].
Proof. vm_compute. reflexivity. Qed.

(** ** The force kernel *)

Section KernelProofs.
Context {num : Type} `{Arith num}.

Lemma others_from_0 (i : nat) (stars : list (star num)) :
  others_from i 0 stars = take i stars ++ drop (S i) stars.
Proof. unfold others_from. by rewrite drop_0, Nat.max_0_l. Qed.

Lemma others_from_self (i : nat) (stars : list (star num)) :
  others_from i i stars = others_from i (S i) stars.
Proof.
  unfold others_from.
  rewrite (drop_ge (take i stars) i) by (rewrite length_take; lia).
  rewrite (drop_ge (take i stars) (S i)) by (rewrite length_take; lia).
  replace (i `max` S i) with (S i `max` S i) by lia. done.
Qed.

Lemma others_from_end (i j : nat) (stars : list (star num)) :
  length stars <= j -> others_from i j stars = [].
Proof.
  intros Hj. unfold others_from.
  rewrite (drop_ge (take i stars) j) by (rewrite length_take; lia).
  by rewrite drop_ge by lia.
Qed.

Lemma others_from_step (i j : nat) (stars : list (star num)) (sj : star num) :
  i <> j -> stars !! j = Some sj ->
  others_from i j stars = sj :: others_from i (S j) stars.
Proof.
  intros Hij Hj. unfold others_from.
  destruct (decide (j < i)) as [Hlt|Hge].
  - rewrite (drop_S (take i stars) sj j) by (by rewrite lookup_take_lt).
    replace (j `max` S i) with (S j `max` S i) by lia. done.
  - rewrite (drop_ge (take i stars) j) by (rewrite length_take; lia).
    rewrite (drop_ge (take i stars) (S j)) by (rewrite length_take; lia).
    replace (j `max` S i) with j by lia.
    replace (S j `max` S i) with (S j) by lia.
    by rewrite (drop_S stars sj j).
Qed.

Lemma others_from_insert (i j : nat) (stars : list (star num)) (s : star num) :
  others_from i j (<[i := s]> stars) = others_from i j stars.
Proof.
  unfold others_from.
  rewrite take_insert_ge by lia. by rewrite drop_insert_lt by lia.
Qed.

Lemma pair_force_addForce (si sj : star num) (f : vec2d num) :
  pair_force (addForce si f) sj = pair_force si sj.
Proof. reflexivity. Qed.

(** One run of the loop over [j] adds to the force of star [i], and to
    nothing else, the force of every other star in turn. *)
Lemma force_loop_from (fuel : nat) :
  forall (i j : nat) (stars : list (star num)) (si : star num),
    stars !! i = Some si ->
    length stars - j <= fuel ->
    force_loop fuel i j stars
    = Some (<[i := Star (mass si) (pos si) (vel si)
                     (fold_left vadd (pair_force si <$> others_from i j stars)
                                (force si))]> stars).
Proof.
  induction fuel as [|fuel IH]; intros i j stars si Hi Hfuel.
  - simpl. destruct (decide _) as [?|Hge]; [lia|].
    rewrite others_from_end by lia. simpl.
    destruct si. by rewrite list_insert_id.
  - simpl. destruct (decide (j < length stars)) as [Hlt|Hge].
    2:{ rewrite others_from_end by lia. simpl.
        destruct si. by rewrite list_insert_id. }
    destruct (decide (i = j)) as [->|Hij].
    + rewrite (IH j (S j) stars si) by (done || lia).
      by rewrite others_from_self.
    + destruct (lookup_lt_is_Some_2 stars j Hlt) as [sj Hj].
      rewrite Hi, Hj.
      assert (Hi' : i < length stars) by (apply lookup_lt_is_Some; eauto).
      rewrite (IH i (S j) _ (addForce si (pair_force si sj))).
      * rewrite list_insert_insert_eq, others_from_insert.
        rewrite (others_from_step i j stars sj Hij Hj). simpl.
        do 3 f_equal.
      * by rewrite list_lookup_insert_eq.
      * rewrite length_insert. lia.
Qed.

Lemma force_loop_accumulates (i : nat) (stars : list (star num)) (si : star num) :
  stars !! i = Some si ->
  force_loop (length stars) i 0 stars
  = Some (<[i := Star (mass si) (pos si) (vel si)
                   (fold_left vadd (contributions i si stars) (force si))]> stars).
Proof.
  intros Hi. rewrite (force_loop_from _ i 0 stars si Hi) by lia.
  by rewrite others_from_0.
Qed.

Lemma contribution_of (i j : nat) (stars : list (star num)) (si sj : star num) :
  i <> j -> stars !! j = Some sj ->
  pair_force si sj ∈ contributions i si stars.
Proof.
  intros Hij Hj. unfold contributions. apply list_elem_of_fmap_2.
  apply elem_of_app.
  destruct (decide (j < i)) as [Hlt|Hge].
  - left. apply list_elem_of_lookup. exists j. by rewrite lookup_take_lt.
  - right. apply list_elem_of_lookup. exists (j - S i).
    rewrite lookup_drop. by replace (S i + (j - S i)) with j by lia.
Qed.
(** A pass of a worker always completes; it keeps the length of the
    collection and changes no star that the worker does not own. *)
Lemma thread_loop_frame (fuel : nat) :
  forall (i : nat) (id : Z) (stars : list (star num)),
    length stars - i <= fuel ->
    exists out,
      thread_loop fuel i id stars = Some out
      /\ length out = length stars
      /\ forall k, owns id k = false -> out !! k = stars !! k.
Proof.
  induction fuel as [|fuel IH]; intros i id stars Hfuel; simpl.
  - destruct (decide _) as [?|_]; [lia|]. by exists stars.
  - destruct (decide (i < length stars)) as [Hlt|_]; [|by exists stars].
    destruct (owns id i) eqn:Hown.
    + destruct (lookup_lt_is_Some_2 stars i Hlt) as [si Hi].
      rewrite (force_loop_accumulates i stars si Hi).
      rewrite list_lookup_insert_eq by done.
      destruct (IH (S i) id
                  (<[i := update
                            (Star (mass si) (pos si) (vel si)
                               (fold_left vadd (contributions i si stars)
                                          (force si))) DT]>
                     (<[i := Star (mass si) (pos si) (vel si)
                               (fold_left vadd (contributions i si stars)
                                          (force si))]> stars)))
        as (out & Hout & Hlen & Hframe).
      { rewrite !length_insert. lia. }
      exists out. split; [done|]. rewrite !length_insert in Hlen.
      split; [done|]. intros k Hk. rewrite (Hframe k Hk).
      assert (i <> k) by (intros ->; congruence).
      by rewrite !list_lookup_insert_ne.
    + destruct (IH (S i) id stars) as (out & Hout & Hlen & Hframe); [lia|].
      by exists out.
Qed.

Lemma thread_fn_frame (id : Z) (stars : list (star num)) :
  exists out,
    thread_fn id stars = Some out
    /\ length out = length stars
    /\ forall k, owns id k = false -> out !! k = stars !! k.
Proof. apply thread_loop_frame. lia. Qed.
End KernelProofs.

(** ** Vectors over the reals *)

Section RealVectors.
Local Open Scope R_scope.

Lemma sum_squares_nonneg (a b : R) : 0 <= a * a + b * b.
Proof. nra. Qed.

Lemma magnitude_nonneg (v : vec2d R) : 0 <= magnitude v.
Proof. apply sqrt_pos. Qed.

Lemma magnitude_square (v : vec2d R) :
  magnitude v * magnitude v = vec_x v * vec_x v + vec_y v * vec_y v.
Proof. apply sqrt_sqrt, sum_squares_nonneg. Qed.

Lemma magnitude_smul (k : R) (v : vec2d R) :
  magnitude (smul k v) = Rabs k * magnitude v.
Proof.
  unfold magnitude, smul. simpl.
  replace (k * vec_x v * (k * vec_x v) + k * vec_y v * (k * vec_y v))
    with (Rsqr k * (vec_x v * vec_x v + vec_y v * vec_y v))
    by (unfold Rsqr; ring).
  rewrite sqrt_mult by (apply Rle_0_sqr || apply sum_squares_nonneg).
  by rewrite sqrt_Rsqr_abs.
Qed.

Lemma normalized_smul (v : vec2d R) : normalized v = smul (/ magnitude v) v.
Proof. unfold normalized, vdiv, smul. simpl. f_equal; unfold Rdiv; ring. Qed.

Lemma magnitude_normalized (v : vec2d R) :
  0 < magnitude v -> magnitude (normalized v) = 1.
Proof.
  intros Hpos. rewrite normalized_smul, magnitude_smul.
  rewrite Rabs_right by (left; by apply Rinv_0_lt_compat).
  field. lra.
Qed.

(** The force of [pair_force] as a multiple of the unit vector. *)
Lemma pair_force_unit (a b : star R) :
  pair_force a b
  = smul (- (IZR G * mass a * mass b
             / (magnitude (vsub (pos a) (pos b)) * magnitude (vsub (pos a) (pos b)))))
         (normalized (vsub (pos a) (pos b))).
Proof.
  unfold pair_force, normalized, vdiv, vmul, vneg, smul, pow2. simpl.
  f_equal; unfold Rdiv; ring.
Qed.

(** The same force as a multiple of the vector from [a] to [b]. *)
Lemma pair_force_toward (a b : star R) :
  0 < magnitude (vsub (pos a) (pos b)) ->
  pair_force a b
  = smul (IZR G * mass a * mass b
          / (magnitude (vsub (pos a) (pos b)) * magnitude (vsub (pos a) (pos b))
             * magnitude (vsub (pos a) (pos b))))
         (vsub (pos b) (pos a)).
Proof.
  intros Hpos.
  unfold pair_force, normalized, vdiv, vmul, vneg, smul, pow2.
  set (d := magnitude (vsub (pos a) (pos b))) in *. simpl.
  f_equal; field; lra.
Qed.

Lemma pair_force_magnitude (a b : star R) :
  0 < magnitude (vsub (pos a) (pos b)) -> 0 <= mass a -> 0 <= mass b ->
  magnitude (pair_force a b)
  = IZR G * mass a * mass b
    / (magnitude (vsub (pos a) (pos b)) * magnitude (vsub (pos a) (pos b))).
Proof.
  intros Hpos Ha Hb.
  rewrite pair_force_unit, magnitude_smul, magnitude_normalized by done.
  set (d := magnitude (vsub (pos a) (pos b))) in *.
  rewrite Rabs_Ropp, Rabs_right; [ring|].
  apply Rle_ge. unfold G. apply Rmult_le_pos.
  - nra.
  - left. apply Rinv_0_lt_compat. nra.
Qed.
End RealVectors.

(** ** The claim on the force law *)

Section ForceLaw.
Local Open Scope R_scope.

(** C3: in a run of the loop over [j], the force that star [A] at index [i]
    receives from another star [B] at positive distance [d] is
    [pair_force A B], one of the forces the loop adds to the force of [A];
    it is [-G * mA * mB / d²] times the unit vector of [A.pos - B.pos], a
    multiple [G * mA * mB / d³] of the vector from [A] to [B], of length
    [G * mA * mB / d²] for masses that are not negative; for the masses 10
    and 20 at distance 5 its length is 8 and it lies on the line from [A] to
    [B]. *)
Theorem force_law (stars : list (star R)) (i j : nat) (A B : star R) :
  stars !! i = Some A -> stars !! j = Some B -> i <> j ->
  0 < magnitude (vsub (pos A) (pos B)) ->
  (exists out A',
      force_loop (length stars) i 0 stars = Some out
      /\ out !! i = Some A'
      /\ force A' = fold_left vadd (contributions i A stars) (force A)
      /\ pair_force A B ∈ contributions i A stars)
  /\ pair_force A B
     = smul (- (IZR G * mass A * mass B
                / (magnitude (vsub (pos A) (pos B))
                   * magnitude (vsub (pos A) (pos B)))))
            (normalized (vsub (pos A) (pos B)))
  /\ pair_force A B
     = smul (IZR G * mass A * mass B
             / (magnitude (vsub (pos A) (pos B))
                * magnitude (vsub (pos A) (pos B))
                * magnitude (vsub (pos A) (pos B))))
            (vsub (pos B) (pos A))
  /\ (0 <= mass A -> 0 <= mass B ->
      magnitude (pair_force A B)
      = IZR G * mass A * mass B
        / (magnitude (vsub (pos A) (pos B)) * magnitude (vsub (pos A) (pos B))))
  /\ (mass A = 10 -> mass B = 20 -> magnitude (vsub (pos A) (pos B)) = 5 ->
      magnitude (pair_force A B) = 8
      /\ pair_force A B = smul (8 / 5) (vsub (pos B) (pos A))).
Proof.
  intros Hi Hj Hij Hpos.
  split; [|split; [|split; [|split]]].
  - eexists _, _. split; [by apply force_loop_accumulates|].
    split; [|split].
    + apply list_lookup_insert_eq. apply lookup_lt_is_Some; eauto.
    + reflexivity.
    + by apply (contribution_of i j stars).
  - apply pair_force_unit.
  - by apply pair_force_toward.
  - intros Ha Hb. by apply pair_force_magnitude.
  - intros Ha Hb Hd. split.
    + rewrite pair_force_magnitude by (done || lra).
      rewrite Ha, Hb, Hd. unfold G. lra.
    + rewrite pair_force_toward by done.
      rewrite Ha, Hb, Hd. unfold G. f_equal. lra.
Qed.

Lemma sun_planet_distance : magnitude (vsub (pos sun) (pos planet)) = 5.
Proof.
  unfold magnitude. simpl.
  replace ((0 - 3) * (0 - 3) + (0 - 4) * (0 - 4)) with (5 * 5) by lra.
  apply sqrt_square. lra.
Qed.

(** The force law on [sun] and [planet]. *)
Lemma force_law_sun_planet :
  magnitude (pair_force sun planet) = 8
  /\ pair_force sun planet = smul (8 / 5) (vsub (pos planet) (pos sun)).
Proof.
  assert (Hpos : 0 < magnitude (vsub (pos sun) (pos planet)))
    by (rewrite sun_planet_distance; lra).
  apply (force_law [sun; planet] 0%nat 1%nat sun planet
           eq_refl eq_refl (Nat.neq_succ_diag_r 0) Hpos);
    [reflexivity | reflexivity | apply sun_planet_distance].
Defined.
End ForceLaw.

(** The same scenario in binary32, on the x axis: the force on the star of
    mass 10 is 8 along the axis, toward the other star. *)
Example force_scenario_binary32 :
  pair_force light_star apart_star
  = Vec2d (float_of_Z 8) (S754_zero true)
  /\ magnitude (pair_force light_star apart_star) = float_of_Z 8.
Proof. vm_compute. split; reflexivity. Qed.

(** ** The creation of the workers *)

(** The static partition: with [W] workers, every index belongs to exactly
    one of the classes [i mod W = k], [k < W]. *)
Lemma partition_exact (W i : nat) :
  W <> 0%nat -> exists k, (k < W /\ i mod W = k) /\
                          forall k', k' < W /\ i mod W = k' -> k' = k.
Proof.
  intros HW. exists (i mod W). split.
  - split; [by apply Nat.mod_upper_bound|done].
  - by intros k' [_ <-].
Qed.

(** With the numbers 0 to 3, one to each worker, every star has exactly one
    writer. *)
Lemma writers_distinct_numbers (i : nat) :
  exists k, writers [0; 1; 2; 3]%Z i = [k] /\ k = (i mod 4)%nat.
Proof.
  exists (i mod 4)%nat. split; [|done].
  unfold writers, writers_from, owns, NUM_WORKER_THREADS.
  rewrite (Z.rem_mod_nonneg (Z.of_nat i) 4)%Z by lia.
  assert (Hmod : (Z.of_nat i mod 4 = Z.of_nat (i mod 4))%Z)
    by (by rewrite Nat2Z.inj_mod).
  rewrite Hmod.
  assert (Hlt : (i mod 4 < 4)%nat) by (by apply Nat.mod_upper_bound).
  destruct (i mod 4)%nat as [|[|[|[|n]]]]; simpl; try reflexivity. lia.
Qed.

(** The writers of star [i] are the workers whose number owns [i]. *)
Lemma writers_from_owns (nums : list Z) (i : nat) :
  forall start k,
    k ∈ writers_from start nums i
    <-> exists n, start <= k /\ nums !! (k - start) = Some n /\ owns n i = true.
Proof.
  induction nums as [|m nums IH]; intros start k; simpl.
  - split; [by intros ?%elem_of_nil|]. by intros (n & _ & ? & _).
  - destruct (owns m i) eqn:Hm.
    + rewrite elem_of_cons, IH. split.
      * intros [->|(n & Hle & Hn & Hown)].
        -- exists m. rewrite Nat.sub_diag. by auto.
        -- exists n. split; [lia|]. split; [|done].
           by replace (k - start) with (S (k - S start)) by lia.
      * intros (n & Hle & Hn & Hown).
        destruct (decide (k = start)) as [->|Hne]; [by left|]. right.
        exists n. split; [lia|]. split; [|done].
        by replace (k - start) with (S (k - S start)) in Hn by lia.
    + rewrite IH. split.
      * intros (n & Hle & Hn & Hown). exists n. split; [lia|]. split; [|done].
        by replace (k - start) with (S (k - S start)) by lia.
      * intros (n & Hle & Hn & Hown).
        destruct (decide (k = start)) as [->|Hne].
        -- rewrite Nat.sub_diag in Hn. simpl in Hn. congruence.
        -- exists n. split; [lia|]. split; [|done].
           by replace (k - start) with (S (k - S start)) in Hn by lia.
Qed.

(** The start-up can hand every worker its own number. *)
Lemma worker_numbers_can_differ :
  launch_run launch_init prompt_readers
  = Some (Launch LoopDone 4 [Some 0; Some 1; Some 2; Some 3]%Z).
Proof. reflexivity. Qed.

(** C4: the start-up does not hand every worker a number of its own.  On
    the schedule [late_reader] it completes with the first two workers both
    carrying the number 1 and no worker carrying 0, so that star 0 has no
    writer and star 1 has two. *)
Theorem worker_numbers_can_collide :
  launch_run launch_init late_reader
  = Some (Launch LoopDone 4 [Some 1; Some 1; Some 2; Some 3]%Z)
  /\ writers [1; 1; 2; 3]%Z 0 = []
  /\ writers [1; 1; 2; 3]%Z 1 = [0; 1]%nat.
Proof. repeat split. Qed.

(** ** The barrier protocol *)

Lemma blocked_le (l : list worker_pc) :
  length (filter (fun w => worker_blocked w = true) l) <= length l.
Proof. apply length_filter. Qed.

Lemma blocked_all (l : list worker_pc) :
  length (filter (fun w => worker_blocked w = true) l) = length l ->
  Forall (fun w => worker_blocked w = true) l.
Proof.
  induction l as [|w l IH]; [by constructor|].
  destruct (worker_blocked w) eqn:Hw.
  - rewrite filter_cons_True by done. simpl. intros Hlen.
    constructor; [done|]. apply IH. lia.
  - rewrite filter_cons_False by (by rewrite Hw). simpl. intros Hlen.
    pose proof (blocked_le l). lia.
Qed.

Lemma blocked_insert_wait (l : list worker_pc) (k n : nat) (w : worker_pc) :
  l !! k = Some w -> worker_blocked w = false ->
  length (filter (fun w => worker_blocked w = true) (<[k := WWait n]> l))
  = S (length (filter (fun w => worker_blocked w = true) l)).
Proof.
  revert k. induction l as [|a l IH]; intros [|k] Hk Hw;
    try discriminate.
  - injection Hk as ->.
    change (<[0 := WWait n]> (w :: l)) with (WWait n :: l).
    rewrite filter_cons_True by done.
    by rewrite filter_cons_False by (by rewrite Hw).
  - change (<[S k := WWait n]> (a :: l)) with (a :: <[k := WWait n]> l).
    change ((a :: l) !! S k) with (l !! k) in Hk.
    destruct (worker_blocked a) eqn:Ha.
    + rewrite !filter_cons_True by done. simpl. by rewrite (IH k).
    + rewrite !filter_cons_False by (by rewrite Ha). by apply IH.
Qed.

Lemma generation_return (c : coord_pc) :
  generation (coord_return c) = S (generation c).
Proof. destruct c; simpl; lia. Qed.

(** Released from the barrier at generation [g], a blocked worker is at work
    in generation [g + 1]. *)
Lemma release_all (g : nat) (l : list worker_pc) :
  Forall (worker_at g) l ->
  Forall (fun w => worker_blocked w = true) l ->
  Forall (fun w => w = WWork g) (worker_release <$> l).
Proof.
  intros Hat Hblocked. apply Forall_fmap.
  induction Hat as [|w l Hw _ IH]; [by constructor|].
  apply Forall_cons in Hblocked as [Hb Hbl].
  constructor; [|by apply IH].
  destruct w; simpl in *; try discriminate. by subst.
Qed.

Lemma at_work (g : nat) (l : list worker_pc) :
  Forall (fun w => w = WWork g) l -> Forall (worker_at (S g)) l.
Proof. intros Hall. eapply Forall_impl; [done|]. by intros w ->. Qed.

Section ProtocolProofs.
Variable W : nat.

Lemma init_inv : protocol_inv W (init W).
Proof.
  split; simpl; [by rewrite length_replicate|].
  apply Forall_replicate. reflexivity.
Qed.

(** Every step either keeps the coordinator where it is, or blocks it, or
    releases the barrier. *)
Lemma exec_cases (s s' : protocol) (e : event) :
  protocol_inv W s -> exec W s e = Some s' ->
  length (workers s') = W
  /\ ((coord s' = coord s /\ Forall (worker_at (generation (coord s))) (workers s'))
      \/ (coord s' = coord_block (coord s) /\ coord_blocked (coord s) = false
          /\ workers s' = workers s)
      \/ released s s').
Proof.
  intros [Hlen Hat] Hexec. destruct e as [|k|k]; simpl in Hexec.
  - destruct (coord_blocked (coord s)) eqn:Hc; [discriminate|].
    destruct (decide (arrived s = W)) as [Harr|_];
      injection Hexec as <-; simpl.
    + rewrite length_fmap. split; [done|]. right. right.
      unfold arrived in Harr. rewrite Hc in Harr. simpl in Harr.
      split; [apply generation_return|].
      apply release_all; [done|]. apply blocked_all. lia.
    + split; [done|]. right. left. done.
  - destruct (workers s !! k) as [[n| |]|] eqn:Hk; try discriminate.
    assert (Hn : n = generation (coord s)).
    { rewrite Forall_lookup in Hat. apply (Hat k _ Hk). }
    assert (Hklt : k < length (workers s)) by (apply lookup_lt_is_Some; eauto).
    destruct (decide (arrived s = W)) as [Harr|_];
      injection Hexec as <-; simpl.
    + rewrite length_insert, length_fmap. split; [done|]. right. right.
      unfold arrived in Harr.
      pose proof (blocked_insert_wait (workers s) k n (WReady n) Hk eq_refl)
        as Hins.
      pose proof (blocked_le (<[k := WWait n]> (workers s))) as Hle.
      rewrite length_insert in Hle.
      destruct (coord_blocked (coord s)) eqn:Hc; [|simpl in Harr; lia].
      unfold released, coord_release. simpl. rewrite Hc.
      split; [apply generation_return|].
      replace (<[k := WWork n]> (worker_release <$> workers s))
        with (worker_release <$> <[k := WWait n]> (workers s))
        by (by rewrite list_fmap_insert).
      apply release_all.
      * apply Forall_insert; [done|]. simpl. done.
      * apply blocked_all. rewrite length_insert. simpl in Harr. lia.
    + rewrite length_insert. split; [done|]. left. split; [done|].
      apply Forall_insert; [done|]. simpl. done.
  - destruct (workers s !! k) as [[| |n]|] eqn:Hk; try discriminate.
    injection Hexec as <-. simpl. rewrite length_insert.
    split; [done|]. left. split; [done|].
    apply Forall_insert; [done|]. simpl.
    rewrite Forall_lookup in Hat. apply (Hat k _ Hk).
Qed.

Lemma exec_inv (s s' : protocol) (e : event) :
  protocol_inv W s -> exec W s e = Some s' -> protocol_inv W s'.
Proof.
  intros Hinv Hexec.
  destruct (exec_cases s s' e Hinv Hexec) as [Hlen [[Hc Hat]|[(Hc & Hb & Hw)|[Hg Hat]]]];
    (split; [done|]).
  - by rewrite Hc.
  - rewrite Hc, Hw. destruct Hinv as [_ Hat].
    by destruct (coord s).
  - rewrite Hg. by apply at_work.
Qed.

Lemma run_inv (trace : list event) :
  forall s s', protocol_inv W s -> run W s trace = Some s' -> protocol_inv W s'.
Proof.
  induction trace as [|e trace IH]; intros s s' Hinv Hrun; simpl in Hrun.
  - by injection Hrun as <-.
  - destruct (exec W s e) as [s1|] eqn:Hexec; [|discriminate].
    apply (IH s1); [|done]. by apply (exec_inv s s1 e).
Qed.
End ProtocolProofs.

(** C5: in every run of the protocol the coordinator calls the barrier twice
    in a frame; the first call returns with every worker released into the
    pass of this round, and the second call returns, to the next frame, only
    in a step that releases the barrier, when every one of the [W] workers has
    finished that pass (pass [2 * f + 1]) and has arrived at the barrier
    again. *)
Theorem second_wait_returns_after_round
  (W : nat) (trace : list event) (s s' : protocol) (e : event) (f : nat) :
  run W (init W) trace = Some s -> exec W s e = Some s' ->
  length (workers s') = W
  /\ (coord s' = CBetween f -> coord s <> CBetween f ->
      (coord s = CFrame f \/ coord s = CWait1 f)
      /\ Forall (fun w => w = WWork (2 * f)) (workers s'))
  /\ (coord s' = CFrame (S f) -> coord s <> CFrame (S f) ->
      (coord s = CBetween f \/ coord s = CWait2 f)
      /\ Forall (fun w => w = WWork (2 * f + 1)) (workers s')).
Proof.
  intros Hrun Hexec.
  pose proof (run_inv W trace _ _ (init_inv W) Hrun) as Hinv.
  destruct (exec_cases W s s' e Hinv Hexec)
    as [Hlen [[Hc Hat]|[(Hc & Hb & Hw)|[Hg Hat]]]];
    (split; [done|]); split; intros Hc' Hne.
  - congruence.
  - congruence.
  - rewrite Hc' in Hc. destruct (coord s); discriminate.
  - rewrite Hc' in Hc. destruct (coord s); discriminate.
  - rewrite Hc' in Hg. destruct (coord s) as [f0|f0|f0|f0] eqn:Hs;
      simpl in Hg; try lia.
    + assert (f0 = f) as -> by lia. split; [by left|]. by simpl in Hat.
    + assert (f0 = f) as -> by lia. split; [by right|]. by simpl in Hat.
  - rewrite Hc' in Hg. destruct (coord s) as [f0|f0|f0|f0] eqn:Hs;
      simpl in Hg; try lia.
    + assert (f0 = f) as -> by lia. split; [by left|]. by simpl in Hat.
    + assert (f0 = f) as -> by lia. split; [by right|]. by simpl in Hat.
Qed.

(** ** The spawner *)

Section SpawnerProofs.
Context {num : Type} {AR : Arith num} {LM : Libm num}.
Variable E : entropy num.

Lemma loop_star_shift (radius : num) (center : vec2d num) (direction : num)
  (u k : nat) :
  loop_star E radius center direction u (S k)
  = loop_star E radius center direction (u + 4) k.
Proof.
  unfold loop_star.
  replace (u + 4 * S k) with (u + 4 + 4 * k) by lia. reflexivity.
Qed.

Lemma spawn_loop_step (n : nat) (radius : num) (center : vec2d num)
  (direction : num) (stars : list (star num)) (r u : nat) :
  spawn_loop E (S n) radius center direction stars (RngState r u)
  = spawn_loop E n radius center direction
      (stars ++ [loop_star E radius center direction u 0])
      (RngState (r + 3) (u + 4)).
Proof.
  cbn [spawn_loop]. unfold mbind, Rand_bind, drand, rand, loop_star.
  cbn [rand_count unit_count].
  replace (u + 4 * 0) with u by lia.
  replace (u + 1) with (S u) by lia.
  replace (u + 2) with (S (S u)) by lia.
  replace (u + 3) with (S (S (S u))) by lia.
  replace (u + 4) with (S (S (S (S u)))) by lia.
  replace (r + 3) with (S (S (S r))) by lia.
  reflexivity.
Qed.

(** The loop adds one star for each iteration, built from the next four
    samples. *)
Lemma spawn_loop_closed (n : nat) :
  forall (radius : num) (center : vec2d num) (direction : num)
         (stars : list (star num)) (r u : nat),
    spawn_loop E n radius center direction stars (RngState r u)
    = (stars ++ (loop_star E radius center direction u <$> seq 0 n),
       RngState (r + 3 * n) (u + 4 * n)).
Proof.
  induction n as [|n IH]; intros radius center direction stars r u.
  - simpl. unfold mret, Rand_ret. rewrite app_nil_r.
    do 2 f_equal; lia.
  - rewrite spawn_loop_step, IH. f_equal; [|f_equal; lia].
    rewrite <- app_assoc. f_equal.
    change (seq 0 (S n)) with (0 :: seq 1 n). rewrite fmap_cons.
    change ([?x] ++ ?l) with (x :: l). f_equal.
    rewrite <- fmap_S_seq, <- list_fmap_compose.
    apply list_fmap_ext. intros _ k _. simpl.
    by rewrite loop_star_shift.
Qed.

(** A call of [addRandomGalaxy] adds the stars of [galaxy] at the end of the
    collection. *)
Lemma addRandomGalaxy_closed (center_x center_y : num)
  (stars : list (star num)) (st : rng_state) :
  (addRandomGalaxy E center_x center_y stars st).1
  = stars ++ galaxy E center_x center_y st.
Proof.
  destruct st as [r u].
  unfold addRandomGalaxy, mbind, Rand_bind, drand, rand.
  cbn [rand_count unit_count]. rewrite spawn_loop_closed. reflexivity.
Qed.
End SpawnerProofs.

(** ** The spawner over the reals *)

Section SpawnReal.
Local Open Scope R_scope.

Lemma scaled_sample (lo hi u : R) :
  lo <= hi -> 0 <= u <= 1 -> lo <= lo + (hi - lo) * u <= hi.
Proof. intros Hlh [Hu0 Hu1]. split; nra. Qed.


Lemma pick_direction_cases (r : Z) :
  pick_direction (num := R) r = 1 \/ pick_direction (num := R) r = -1.
Proof. unfold pick_direction. destruct (_ =? _)%Z; simpl; auto. Qed.

Lemma unit_circle (a : R) : sin a * sin a + cos a * cos a = 1.
Proof. pose proof (sin2_cos2 a) as Hsc. unfold Rsqr in Hsc. lra. Qed.

Lemma sqrt_square_scaled (k s c : R) :
  0 <= k -> s * s + c * c = 1 -> sqrt (k * s * (k * s) + k * c * (k * c)) = k.
Proof.
  intros Hk Hsc.
  replace (k * s * (k * s) + k * c * (k * c)) with (k * k * (s * s + c * c))
    by ring.
  rewrite Hsc, Rmult_1_r. by apply sqrt_square.
Qed.

(** The star of one iteration: where it is, how far from the centre, how it
    moves. *)
Lemma make_star_real (center : vec2d R) (dir angle d1 d2 speed : R) :
  0 <= d1 * d2 -> (dir = 1 \/ dir = -1) -> 0 <= speed ->
  let s := make_star center dir angle d1 d2 speed in
  pos s = vadd (Vec2d (d1 * d2 * sin angle) (d1 * d2 * cos angle)) center
  /\ magnitude (vsub (pos s) center) = d1 * d2
  /\ vel s = vmul (vmul (vmul (Vec2d (- cos angle) (sin angle))
                              (sqrt (d1 * d2))) dir) speed
  /\ dot (vel s) (vsub (pos s) center) = 0
  /\ magnitude (vel s) = sqrt (d1 * d2) * speed.
Proof.
  intros Hr Hdir Hspeed. simpl.
  split; [reflexivity|]. split; [|split; [reflexivity|split]].
  - unfold magnitude, vsub, vadd. simpl.
    replace (d1 * d2 * sin angle + vec_x center - vec_x center)
      with (d1 * d2 * sin angle) by ring.
    replace (d1 * d2 * cos angle + vec_y center - vec_y center)
      with (d1 * d2 * cos angle) by ring.
    apply sqrt_square_scaled; [done|apply unit_circle].
  - unfold dot, vsub, vadd, vmul. simpl. ring.
  - unfold magnitude, vmul. simpl.
    replace (- cos angle * sqrt (d1 * d2) * dir * speed
             * (- cos angle * sqrt (d1 * d2) * dir * speed)
             + sin angle * sqrt (d1 * d2) * dir * speed
               * (sin angle * sqrt (d1 * d2) * dir * speed))
      with (sqrt (d1 * d2) * speed * cos angle
            * (sqrt (d1 * d2) * speed * cos angle)
            + sqrt (d1 * d2) * speed * sin angle
              * (sqrt (d1 * d2) * speed * sin angle))
      by (destruct Hdir as [-> | ->]; ring).
    apply sqrt_square_scaled.
    + apply Rmult_le_pos; [apply sqrt_pos|done].
    + pose proof (unit_circle angle). lra.
Qed.
End SpawnReal.

(** ** The claims on the spawner *)

Section SpawnClaims.
Local Open Scope R_scope.


Lemma quarter_draws_in_range :
  (forall n, (0 <= rand_at quarter_draws n)%Z)
  /\ (forall n, 0 <= unit_at quarter_draws n <= 1).
Proof. split; [simpl; lia|]. intros [|n]; simpl; lra. Qed.



End SpawnClaims.

(** ** The claim on the mass of a spawned star *)

(** In binary32, [10 / sqrt(|p|)] for an offset [p] that is zero in both
    coordinates is plus infinity. *)
Lemma mass_at_centre (p : vec2d float) :
  is_zero (vec_x p) = true -> is_zero (vec_y p) = true ->
  of_Z 10 ⊘ n_sqrt (magnitude p) = S754_infinity false.
Proof.
  destruct p as [[sx|sx| |sx mx ex] [sy|sy| |sy my ey]]; try discriminate.
  intros _ _. by destruct sx, sy.
Qed.

(** C7 as stated fails on [zero_draws]: the first star lands on the centre
    and its mass is plus infinity. *)
Lemma spawned_mass_can_be_infinite :
  exists s,
    (addRandomGalaxy (LM := small_angle) zero_draws (of_Z 0) (of_Z 0) []
                     (RngState 0 0)).1 !! 0%nat = Some s
    /\ pos s = Vec2d (S754_zero false) (S754_zero false)
    /\ mass s = S754_infinity false
    /\ is_finite (mass s) = false.
Proof. eexists. vm_compute. repeat split; reflexivity. Qed.

Lemma zero_times_finite (a b : float) :
  is_zero a = true -> is_finite b = true -> is_zero (a ⊗ b) = true.
Proof. by destruct a, b. Qed.

(** C7, amended: every star that a call adds gets the mass
    [10 / sqrt(|p|)], [p] being its offset from the centre (its position
    before the centre is added); nothing guards the centre itself: when the
    radial offset [point_radius] is zero (and [sin] and [cos] of the angle
    are finite), this mass is plus infinity. *)
Theorem spawned_mass_has_no_guard (LM : Libm float) (E : entropy float)
  (cx cy : float) (stars : list (star float)) (st : rng_state) :
  exists new,
    (addRandomGalaxy E cx cy stars st).1 = stars ++ new
    /\ Forall (fun s => exists angle d1 d2 : float,
         let point_radius := d1 ⊗ d2 in
         let p := Vec2d (point_radius ⊗ m_sin angle)
                        (point_radius ⊗ m_cos angle) in
         pos s = vadd p (Vec2d cx cy)
         /\ mass s = of_Z 10 ⊘ n_sqrt (magnitude p)
         /\ (is_zero point_radius = true ->
             is_finite (m_sin angle) = true ->
             is_finite (m_cos angle) = true ->
             mass s = S754_infinity false)) new.
Proof.
  exists (galaxy E cx cy st). split; [apply addRandomGalaxy_closed|].
  unfold galaxy. apply Forall_fmap, Forall_forall. intros k _.
  unfold loop_star, make_star.
  eexists _, _, _. split; [reflexivity|]. split; [reflexivity|].
  intros Hzero Hsin Hcos.
  apply mass_at_centre; by apply zero_times_finite.
Qed.

(** ** A round of the protocol with two workers *)

(** C5 on [first_round]: the second worker arrives last at the second wait,
    and the coordinator returns to frame 1 with both workers through pass
    1. *)
Lemma first_round_completes :
  run 2 (init 2) first_round = Some (Protocol (CWait2 0) [WWait 1; WReady 1])
  /\ exec 2 (Protocol (CWait2 0) [WWait 1; WReady 1]) (WorkerArrive 1)
     = Some (Protocol (CFrame 1) [WWork 1; WWork 1])
  /\ Forall (fun w => w = WWork (2 * 0 + 1)) [WWork 1; WWork 1].
Proof.
  split; [reflexivity|]. split; [reflexivity|].
  apply (second_wait_returns_after_round 2 first_round
           (Protocol (CWait2 0) [WWait 1; WReady 1])
           (Protocol (CFrame 1) [WWork 1; WWork 1])
           (WorkerArrive 1) 0 eq_refl eq_refl).
  - reflexivity.
  - discriminate.
Defined.

(** ** What a run of the merger does with each star *)

Section GroupProofs.
Context {num : Type} `{Arith num} `{StarShape num}.

Lemma absorb_merged (a : star num) (rest : list (star num)) :
  (absorb a rest).1 = foldl merge a (absorbed a rest).
Proof.
  revert a. induction rest as [|b rest IH]; intros a; simpl; [done|].
  destruct (overlap a b); simpl.
  - apply IH.
  - specialize (IH a). by destruct (absorb a rest).
Qed.

Lemma absorb_split (a : star num) (rest : list (star num)) :
  absorbed a rest ++ (absorb a rest).2 ≡ₚ rest.
Proof.
  revert a. induction rest as [|b rest IH]; intros a; simpl; [done|].
  destruct (overlap a b); simpl.
  - by rewrite IH.
  - specialize (IH a). destruct (absorb a rest) as [a' r]. simpl in *.
    by rewrite <- Permutation_middle, IH.
Qed.

Lemma sweep_groups (fuel : nat) :
  forall l : list (star num),
    length l <= fuel ->
    sweep fuel l = Some (merged <$> groups fuel l)
    /\ concat (members <$> groups fuel l) ≡ₚ l.
Proof.
  induction fuel as [|fuel IH]; intros [|a rest] Hlen; simpl in *;
    try done; try lia.
  pose proof (absorb_length a rest) as Hr.
  destruct (IH (absorb a rest).2) as [-> Hperm]; [lia|].
  split.
  - unfold merged at 1. simpl. by rewrite absorb_merged.
  - unfold members at 1. simpl. constructor.
    rewrite Hperm. apply absorb_split.
Qed.

Lemma absorb_kept_sublist (a : star num) (rest : list (star num)) :
  (absorb a rest).2 `sublist_of` rest.
Proof.
  revert a. induction rest as [|b rest IH]; intros a; simpl; [done|].
  destruct (overlap a b).
  - by apply sublist_cons.
  - specialize (IH a). destruct (absorb a rest) as [a' r]. simpl in *.
    by apply sublist_skip.
Qed.

Lemma groups_heads_sublist (fuel : nat) :
  forall l : list (star num), (fst <$> groups fuel l) `sublist_of` l.
Proof.
  induction fuel as [|fuel IH]; intros [|a rest]; simpl;
    try done; try apply sublist_nil_l.
  apply sublist_skip. etrans; [apply IH|apply absorb_kept_sublist].
Qed.

(** X1: a run of the merger loses no star and makes none up: the stars of the
    collection are shared out among the stars of the result, each of which
    is one star of the collection with the stars it took in merged into it
    from left to right; the stars that take others in stay in their
    order. *)
Theorem merger_partitions (stars : list (star num)) :
  exists gs : list (star num * list (star num)),
    updateStars stars = Some (merged <$> gs)
    /\ concat (members <$> gs) ≡ₚ stars
    /\ (fst <$> gs) `sublist_of` stars
    /\ (stars <> [] -> gs <> []).
Proof.
  exists (groups (length stars) stars).
  rewrite updateStars_sweep.
  destruct (sweep_groups (length stars) stars) as [Hs Hp]; [lia|].
  split; [done|]. split; [done|].
  split; [apply groups_heads_sublist|].
  by destruct stars.
Qed.
End GroupProofs.

(** ** A pass of a worker *)

Lemma owns_range (id : Z) (i : nat) :
  owns id i = true -> (0 <= id < 4)%Z.
Proof.
  unfold owns, NUM_WORKER_THREADS. intros Hown%Z.eqb_eq.
  pose proof (Z.rem_bound_pos (Z.of_nat i) 4 ltac:(lia) ltac:(lia)). lia.
Qed.

Section WorkerProofs.
Context {num : Type} `{Arith num}.

Lemma thread_loop_idle (fuel : nat) :
  forall (i : nat) (id : Z) (stars : list (star num)),
    (forall k, owns id k = false) ->
    length stars - i <= fuel ->
    thread_loop fuel i id stars = Some stars.
Proof.
  induction fuel as [|fuel IH]; intros i id stars Hidle Hfuel; simpl.
  - by destruct (decide _) as [?|_]; [lia|].
  - destruct (decide _) as [_|_]; [|done].
    rewrite Hidle. apply IH; [done|lia].
Qed.

(** X2: a worker whose number is not one of 0 to 3 owns no star: its pass leaves
    the collection as it is. *)
Theorem thread_fn_foreign_number (id : Z) (stars : list (star num)) :
  (id < 0 \/ 4 <= id)%Z -> thread_fn id stars = Some stars.
Proof.
  intros Hid. apply thread_loop_idle; [|lia].
  intros k. destruct (owns id k) eqn:Hown; [|done].
  apply owns_range in Hown. lia.
Qed.

(** X3: the loop over [j] for star [i] completes and changes nothing but the
    force of star [i]: every other star, and the mass, the position and the
    velocity of star [i], stay as they are. *)
Theorem force_loop_keeps_bodies (i : nat) (stars : list (star num)) :
  i < length stars ->
  exists out,
    force_loop (length stars) i 0 stars = Some out
    /\ length out = length stars
    /\ (forall k, k <> i -> out !! k = stars !! k)
    /\ (exists si so,
          stars !! i = Some si /\ out !! i = Some so
          /\ mass so = mass si /\ pos so = pos si /\ vel so = vel si
          /\ force so = fold_left vadd (contributions i si stars) (force si)).
Proof.
  intros Hi. destruct (lookup_lt_is_Some_2 stars i Hi) as [si Hsi].
  eexists. split; [by apply force_loop_accumulates|].
  split; [by rewrite length_insert|].
  split; [intros k Hk; by rewrite list_lookup_insert_ne|].
  eexists si, _. split; [done|].
  split; [by apply list_lookup_insert_eq|]. done.
Qed.
End WorkerProofs.

Lemma thread_fn_number_4 :
  thread_fn 4 [light_star; heavy_star] = Some [light_star; heavy_star].
Proof. apply thread_fn_foreign_number. lia. Defined.

Lemma force_loop_keeps_bodies_pair :
  exists out,
    force_loop (length [light_star; apart_star]) 0 0 [light_star; apart_star]
    = Some out
    /\ length out = length [light_star; apart_star]
    /\ (forall k, k <> 0 -> out !! k = [light_star; apart_star] !! k)
    /\ (exists si so,
          [light_star; apart_star] !! 0 = Some si /\ out !! 0 = Some so
          /\ mass so = mass si /\ pos so = pos si /\ vel so = vel si
          /\ force so
             = fold_left vadd (contributions 0 si [light_star; apart_star])
                         (force si)).
Proof. apply (force_loop_keeps_bodies 0 [light_star; apart_star]). simpl. lia. Defined.

(** ** The numbers that the workers can read *)

Lemma launch_exec_inv (s s' : launch) (e : launch_event) :
  launch_inv s -> launch_exec s e = Some s' -> launch_inv s'.
Proof.
  destruct s as [pc i l]. unfold launch_inv. simpl.
  intros Hpc Hexec. destruct e as [|k|k v]; simpl in Hexec.
  - destruct pc.
    + unfold NUM_WORKER_THREADS in Hexec.
      destruct (i <? 4)%Z eqn:Hlt; injection Hexec as <-; simpl.
      * apply Z.ltb_lt in Hlt. rewrite length_app. simpl. lia.
      * apply Z.ltb_ge in Hlt. lia.
    + injection Hexec as <-. simpl. lia.
    + by injection Hexec as <-.
  - destruct pc; try discriminate;
      destruct (l !! k) as [[w|]|]; try discriminate;
      injection Hexec as <-; simpl; by rewrite length_insert.
  - destruct pc; try discriminate.
    destruct (l !! k) as [[w|]|]; try discriminate.
    injection Hexec as <-. simpl. by rewrite length_insert.
Qed.

Lemma launch_run_inv (trace : list launch_event) :
  forall s s', launch_inv s -> launch_run s trace = Some s' -> launch_inv s'.
Proof.
  induction trace as [|e trace IH]; intros s s' Hinv Hrun; simpl in Hrun.
  - by injection Hrun as <-.
  - destruct (launch_exec s e) as [s1|] eqn:Hexec; [|discriminate].
    apply (IH s1); [|done]. by apply (launch_exec_inv s s1 e).
Qed.

(** A number that has been read stays. *)
Lemma launch_exec_keeps (s s' : launch) (e : launch_event) (k : nat) (v : Z) :
  ids s !! k = Some (Some v) -> launch_exec s e = Some s' ->
  ids s' !! k = Some (Some v).
Proof.
  destruct s as [pc i l]. simpl. intros Hk Hexec.
  destruct e as [|k'|k' v']; simpl in Hexec.
  - destruct pc.
    + destruct (i <? NUM_WORKER_THREADS)%Z; injection Hexec as <-; simpl;
        [by apply lookup_app_l_Some|done].
    + by injection Hexec as <-.
    + by injection Hexec as <-.
  - destruct pc; try discriminate;
      destruct (l !! k') as [[w|]|] eqn:Hk'; try discriminate;
      injection Hexec as <-; simpl;
      (rewrite list_lookup_insert_ne; [done|intros ->; congruence]).
  - destruct pc; try discriminate.
    destruct (l !! k') as [[w|]|] eqn:Hk'; try discriminate.
    injection Hexec as <-. simpl.
    rewrite list_lookup_insert_ne; [done|intros ->; congruence].
Qed.

Lemma launch_run_keeps (trace : list launch_event) :
  forall s s' k v,
    ids s !! k = Some (Some v) -> launch_run s trace = Some s' ->
    ids s' !! k = Some (Some v).
Proof.
  induction trace as [|e trace IH]; intros s s' k v Hk Hrun; simpl in Hrun.
  - by injection Hrun as <-.
  - destruct (launch_exec s e) as [s1|] eqn:Hexec; [|discriminate].
    apply (IH s1); [|done]. by apply (launch_exec_keeps s s1 e).
Qed.

(** A worker that reads while [i] is alive reads a value that [i] takes
    after the creation of this worker. *)
Lemma launch_read_bound (s s' : launch) (k : nat) :
  launch_inv s -> launch_exec s (WorkerRead k) = Some s' ->
  exists v, ids s' !! k = Some (Some v) /\ (Z.of_nat k <= v <= 4)%Z.
Proof.
  destruct s as [pc i l]. unfold launch_inv. simpl. intros Hpc Hexec.
  destruct pc; try discriminate;
    destruct (l !! k) as [[w|]|] eqn:Hk; try discriminate;
    injection Hexec as <-; simpl;
    assert (Hlt : k < length l) by (apply lookup_lt_is_Some; eauto);
    exists i; (split; [by apply list_lookup_insert_eq|lia]).
Qed.

Lemma launch_run_read_bound (trace : list launch_event) :
  forall s s' k,
    launch_inv s -> launch_run s trace = Some s' -> WorkerRead k ∈ trace ->
    exists v, ids s' !! k = Some (Some v) /\ (Z.of_nat k <= v <= 4)%Z.
Proof.
  induction trace as [|e trace IH]; intros s s' k Hinv Hrun Hin.
  - by apply elem_of_nil in Hin.
  - simpl in Hrun.
    destruct (launch_exec s e) as [s1|] eqn:Hexec; [|discriminate].
    apply elem_of_cons in Hin as [<-|Hin].
    + destruct (launch_read_bound s s1 k Hinv Hexec) as (v & Hk & Hv).
      exists v. split; [|done]. by apply (launch_run_keeps trace s1).
    + apply (IH s1); [|done|done]. by apply (launch_exec_inv s s1 e).
Qed.

(** X4: on every schedule of the start-up, a worker that runs line 194
    while [main] is still in its loop reads a number between its position in
    the order of creation and 4; so it is one of the first four threads, it
    writes no star of an index [i] with [i mod 4] below its position, and
    the stars of the indices 0, 4, 8 and so on are written by no such
    worker but the first.  (A worker that runs line 194 later reads memory
    that is no longer [i]: the model lets it find any number.) *)
Theorem worker_number_at_least_position
  (trace : list launch_event) (s : launch) (k : nat) :
  launch_run launch_init trace = Some s ->
  WorkerRead k ∈ trace ->
  exists v : Z,
    ids s !! k = Some (Some v)
    /\ k < 4
    /\ (Z.of_nat k <= v <= 4)%Z
    /\ (forall i, owns v i = true -> k <= i mod 4)
    /\ (forall i, owns v i = true -> i mod 4 = 0 -> k = 0).
Proof.
  intros Hrun Hin.
  assert (Hinit : launch_inv launch_init) by (unfold launch_inv; simpl; lia).
  destruct (launch_run_read_bound trace _ _ k Hinit Hrun Hin) as (v & Hk & Hv).
  pose proof (launch_run_inv trace _ _ Hinit Hrun) as Hpc.
  assert (Hlen : k < length (ids s)) by (apply lookup_lt_is_Some; eauto).
  assert (Hown : forall i, owns v i = true -> k <= i mod 4).
  { intros i Hown%Z.eqb_eq. unfold NUM_WORKER_THREADS in Hown.
    rewrite Z.rem_mod_nonneg in Hown by lia.
    change 4%Z with (Z.of_nat 4) in Hown.
    rewrite <- Nat2Z.inj_mod in Hown. lia. }
  exists v. split; [done|].
  split; [unfold launch_inv in Hpc; destruct (loop_pc s); lia|].
  split; [done|]. split; [done|].
  intros i Hi H0. specialize (Hown i Hi). lia.
Qed.

Lemma worker_number_late_reader :
  exists v : Z,
    ids (Launch LoopDone 4 [Some 1; Some 1; Some 2; Some 3]%Z) !! 1
    = Some (Some v)
    /\ 1 < 4
    /\ (Z.of_nat 1 <= v <= 4)%Z
    /\ (forall i, owns v i = true -> 1 <= i mod 4)
    /\ (forall i, owns v i = true -> i mod 4 = 0 -> 1 = 0).
Proof.
  apply (worker_number_at_least_position late_reader
           (Launch LoopDone 4 [Some 1; Some 1; Some 2; Some 3]%Z) 1 eq_refl).
  apply (list_elem_of_lookup_2 _ 4). reflexivity.
Defined.

(** A worker that runs line 194 after [main] has left the loop can carry a
    number that [i] never had. *)
Example late_read_any_number :
  launch_run launch_init sleepy_reader
  = Some (Launch LoopDone 4 [Some 7; Some 1; Some 2; Some 3]%Z).
Proof. reflexivity. Qed.

(** ** The barrier protocol: no deadlock *)

Section Progress.
Variable W : nat.

Lemma blocked_after_release (l : list worker_pc) :
  filter (fun w => worker_blocked w = true) (worker_release <$> l) = [].
Proof.
  induction l as [|w l IH]; [done|]. rewrite fmap_cons.
  rewrite filter_cons_False; [done|]. by destruct w.
Qed.

Lemma blocked_insert_other (l : list worker_pc) (k : nat) (w w' : worker_pc) :
  l !! k = Some w -> worker_blocked w = false -> worker_blocked w' = false ->
  filter (fun w => worker_blocked w = true) (<[k := w']> l)
  = filter (fun w => worker_blocked w = true) l.
Proof.
  revert k. induction l as [|a l IH]; intros [|k] Hk Hw Hw'; try discriminate.
  - injection Hk as ->. change (<[0 := w']> (w :: l)) with (w' :: l).
    rewrite !filter_cons_False; [done|by rewrite Hw|by rewrite Hw'].
  - change (<[S k := w']> (a :: l)) with (a :: <[k := w']> l).
    change ((a :: l) !! S k) with (l !! k) in Hk.
    destruct (worker_blocked a) eqn:Ha.
    + rewrite !filter_cons_True by done. f_equal. by apply IH.
    + rewrite !filter_cons_False by (by rewrite Ha). by apply IH.
Qed.

Lemma exec_arrived (s s' : protocol) (e : event) :
  protocol_inv W s -> arrived s <= W -> exec W s e = Some s' -> arrived s' <= W.
Proof.
  intros [Hlen _] Harr Hexec. unfold arrived in *.
  destruct e as [|k|k]; simpl in Hexec.
  - destruct (coord_blocked (coord s)) eqn:Hc; [discriminate|].
    destruct (decide _) as [Heq|Hne]; injection Hexec as <-; simpl.
    + rewrite blocked_after_release. by destruct (coord s); simpl; lia.
    + unfold arrived in Hne. rewrite Hc in Hne.
      destruct (coord s); simpl in *; try discriminate; lia.
  - destruct (workers s !! k) as [[n| |]|] eqn:Hk; try discriminate.
    destruct (decide _) as [Heq|Hne]; injection Hexec as <-; simpl.
    + rewrite (blocked_insert_other _ k (WReady n) (WWork n)).
      * rewrite blocked_after_release. unfold coord_release.
        destruct (coord s); simpl; lia.
      * rewrite list_lookup_fmap, Hk. done.
      * done.
      * done.
    + unfold arrived in Hne.
      rewrite (blocked_insert_wait _ k n (WReady n) Hk eq_refl). lia.
  - destruct (workers s !! k) as [[| |n]|] eqn:Hk; try discriminate.
    injection Hexec as <-. simpl.
    by rewrite (blocked_insert_other _ k (WWork n) (WReady (S n)) Hk).
Qed.

Lemma run_arrived (trace : list event) :
  forall s s', protocol_inv W s -> arrived s <= W ->
               run W s trace = Some s' -> arrived s' <= W.
Proof.
  induction trace as [|e trace IH]; intros s s' Hinv Harr Hrun; simpl in Hrun.
  - by injection Hrun as <-.
  - destruct (exec W s e) as [s1|] eqn:Hexec; [|discriminate].
    apply (IH s1); [by apply (exec_inv W s s1 e)| |done].
    by apply (exec_arrived s s1 e).
Qed.

Lemma init_arrived : arrived (init W) = 0.
Proof.
  unfold arrived, init. simpl.
  induction W as [|n IH]; [done|]. simpl.
  rewrite filter_cons_False; [done|]. done.
Qed.

Lemma some_worker_runs (l : list worker_pc) :
  length (filter (fun w => worker_blocked w = true) l) < length l ->
  exists k w, l !! k = Some w /\ worker_blocked w = false.
Proof.
  induction l as [|a l IH]; simpl; [lia|].
  destruct (worker_blocked a) eqn:Ha.
  - rewrite filter_cons_True by done. simpl. intros Hlt.
    destruct IH as (k & w & Hk & Hw); [lia|]. by exists (S k), w.
  - intros _. by exists 0, a.
Qed.
End Progress.

(** X5: the protocol cannot get stuck: in every state that a run reaches, never
    more than [W] threads are blocked in the barrier, and some thread can take
    a step. *)
Theorem protocol_never_stuck (W : nat) (trace : list event) (s : protocol) :
  run W (init W) trace = Some s ->
  arrived s <= W /\ exists e s', exec W s e = Some s'.
Proof.
  intros Hrun.
  pose proof (run_inv W trace _ _ (init_inv W) Hrun) as Hinv.
  assert (Harr : arrived s <= W).
  { apply (run_arrived W trace (init W) s (init_inv W)); [|done].
    rewrite init_arrived. lia. }
  split; [done|].
  destruct (coord_blocked (coord s)) eqn:Hc.
  - destruct Hinv as [Hlen _].
    destruct (some_worker_runs (workers s)) as (k & w & Hk & Hw).
    { unfold arrived in Harr. rewrite Hc in Harr. lia. }
    destruct w as [n|n|n]; try discriminate.
    + exists (WorkerArrive k). simpl. rewrite Hk.
      destruct (decide _); eauto.
    + exists (WorkerFinish k). simpl. rewrite Hk. eauto.
  - exists CoordArrive. simpl. rewrite Hc. destruct (decide _); eauto.
Qed.

Lemma protocol_never_stuck_first_round :
  arrived (Protocol (CWait2 0) [WWait 1; WReady 1]) <= 2
  /\ exists e s', exec 2 (Protocol (CWait2 0) [WWait 1; WReady 1]) e = Some s'.
Proof. apply (protocol_never_stuck 2 first_round _ eq_refl). Defined.

(** ** Stars at the same place *)

Lemma sub_self (x : float) :
  is_zero (x ⊖ x) = true \/ is_nan (x ⊖ x) = true.
Proof.
  destruct x as [s|s| |s m e]; simpl.
  - left. by destruct s.
  - right. by destruct s.
  - by right.
  - left. rewrite Z.min_id. unfold shl_align. rewrite Z.sub_diag. simpl.
    done.
Qed.

Lemma normalized_degenerate (dx dy : float) :
  is_zero dx = true \/ is_nan dx = true ->
  is_zero dy = true \/ is_nan dy = true ->
  normalized (Vec2d dx dy) = Vec2d S754_nan S754_nan.
Proof.
  intros [Hx|Hx] [Hy|Hy];
    destruct dx as [sx|sx| |sx mx ex]; try discriminate;
    destruct dy as [sy|sy| |sy my ey]; try discriminate;
    try (by destruct sx, sy); try (by destruct sx); by try destruct sy.
Qed.

Lemma pair_force_same_place (a b : star float) :
  pos a = pos b -> pair_force a b = Vec2d S754_nan S754_nan.
Proof.
  intros Hpos. unfold pair_force. cbv zeta. rewrite Hpos.
  change (vsub (pos b) (pos b))
    with (Vec2d (vec_x (pos b) ⊖ vec_x (pos b)) (vec_y (pos b) ⊖ vec_y (pos b))).
  rewrite normalized_degenerate by apply sub_self.
  reflexivity.
Qed.

Lemma vadd_nan_r (v : vec2d float) :
  vadd v (Vec2d S754_nan S754_nan) = Vec2d S754_nan S754_nan.
Proof. destruct v as [[| | |] [| | |]]; reflexivity. Qed.

Lemma vadd_nan_l (v : vec2d float) :
  vadd (Vec2d S754_nan S754_nan) v = Vec2d S754_nan S754_nan.
Proof. reflexivity. Qed.

Lemma fold_vadd_from_nan (l : list (vec2d float)) :
  fold_left vadd l (Vec2d S754_nan S754_nan) = Vec2d S754_nan S754_nan.
Proof. induction l as [|v l IH]; simpl; [done|]. by rewrite vadd_nan_l. Qed.

Lemma fold_vadd_nan (l : list (vec2d float)) (acc : vec2d float) :
  Vec2d S754_nan S754_nan ∈ l ->
  fold_left vadd l acc = Vec2d S754_nan S754_nan.
Proof.
  revert acc. induction l as [|v l IH]; intros acc Hin.
  - by apply elem_of_nil in Hin.
  - apply elem_of_cons in Hin as [<-|Hin]; simpl.
    + by rewrite vadd_nan_r, fold_vadd_from_nan.
    + by apply IH.
Qed.

(** X6: in binary32, a star at exactly the position of star [i] (another index,
    whatever the masses) makes the force from it NaN in both coordinates, and
    the loop over [j] leaves star [i] with a force that is NaN in both
    coordinates. *)
Theorem same_place_gives_nan_force
  (stars : list (star float)) (i j : nat) (si sj : star float) :
  stars !! i = Some si -> stars !! j = Some sj -> i <> j -> pos si = pos sj ->
  pair_force si sj = Vec2d S754_nan S754_nan
  /\ exists out so,
       force_loop (length stars) i 0 stars = Some out
       /\ out !! i = Some so
       /\ force so = Vec2d S754_nan S754_nan.
Proof.
  intros Hi Hj Hij Hpos.
  pose proof (pair_force_same_place si sj Hpos) as Hnan.
  split; [done|]. eexists _, _.
  split; [by apply force_loop_accumulates|].
  split; [apply list_lookup_insert_eq; apply lookup_lt_is_Some; eauto|].
  simpl. apply fold_vadd_nan. rewrite <- Hnan.
  by apply (contribution_of i j stars).
Qed.

Lemma same_place_pair :
  pair_force light_star twin_star = Vec2d S754_nan S754_nan
  /\ exists out so,
       force_loop (length [light_star; twin_star]) 0 0
                  [light_star; twin_star] = Some out
       /\ out !! 0 = Some so
       /\ force so = Vec2d S754_nan S754_nan.
Proof.
  apply (same_place_gives_nan_force
           [light_star; twin_star] 0 1
           light_star twin_star eq_refl eq_refl);
    [lia|reflexivity].
Defined.

(** ** Action and reaction *)

Section Reaction.
Local Open Scope R_scope.

Lemma magnitude_vsub_swap (p q : vec2d R) :
  magnitude (vsub q p) = magnitude (vsub p q).
Proof. unfold magnitude, vsub. simpl. f_equal. ring. Qed.

(** X7: over the reals, the force of [b] on [a] and the force of [a] on [b]
    are opposite: each is the other negated, and they add up to zero. *)
Theorem pair_force_opposite (a b : star R) :
  0 < magnitude (vsub (pos a) (pos b)) ->
  pair_force b a = vneg (pair_force a b)
  /\ vadd (pair_force a b) (pair_force b a) = vzero.
Proof.
  intros Hpos.
  assert (Hopp : pair_force b a = vneg (pair_force a b)).
  { unfold pair_force, normalized. rewrite (magnitude_vsub_swap (pos a) (pos b)).
    set (d := magnitude (vsub (pos a) (pos b))) in *.
    unfold vdiv, vmul, vneg, vsub, pow2. simpl. f_equal; field; lra. }
  split; [done|]. rewrite Hopp.
  unfold vadd, vneg, vzero. simpl. f_equal; ring.
Qed.

Lemma pair_force_opposite_sun_planet :
  pair_force planet sun = vneg (pair_force sun planet)
  /\ vadd (pair_force sun planet) (pair_force planet sun) = vzero.
Proof.
  apply pair_force_opposite. rewrite sun_planet_distance. lra.
Defined.
End Reaction.

(** ** Where a galaxy is *)

Section SpawnBounds.
Local Open Scope R_scope.

Lemma sqrt_200_pos : 0 < sqrt 200.
Proof. apply sqrt_lt_R0. lra. Qed.

Lemma make_star_mass_real (center : vec2d R) (dir angle d1 d2 speed : R) :
  0 <= d1 * d2 ->
  mass (make_star center dir angle d1 d2 speed) = 10 / sqrt (d1 * d2).
Proof.
  intros Hr. unfold make_star, new_star, magnitude. simpl.
  rewrite sqrt_square_scaled; [done|done|apply unit_circle].
Qed.

Lemma galaxy_in_reach (E : entropy R) (cx cy : R) (st : rng_state) :
  (forall n, 0 <= unit_at E n <= 1) ->
  Forall (fun s =>
    magnitude (vsub (pos s) (Vec2d cx cy)) <= base_radius E st
    /\ base_radius E st <= 200
    /\ magnitude (vel s) <= sqrt 200 * (5 / 4)
    /\ (0 < magnitude (vsub (pos s) (Vec2d cx cy)) ->
        10 / sqrt 200 <= mass s)) (galaxy E cx cy st).
Proof.
  intros Hunit.
  assert (HR0 : 50 <= base_radius E st <= 200).
  { unfold base_radius. simpl. apply scaled_sample; [lra|apply Hunit]. }
  unfold galaxy. apply Forall_fmap, Forall_forall. intros k _.
  cbv beta delta [compose loop_star].
  set (u := (S (unit_count st) + 4 * k)%nat).
  set (R0 := base_radius E st) in *.
  set (angle := of_Z 0 ⊕ (m_two_pi ⊖ of_Z 0) ⊗ unit_at E u).
  set (d1 := of_Z 0 ⊕ (n_sqrt R0 ⊖ of_Z 0) ⊗ unit_at E (u + 1)).
  set (d2 := of_Z 0 ⊕ (n_sqrt R0 ⊖ of_Z 0) ⊗ unit_at E (u + 2)).
  set (speed := quarter ⊕ (five_quarters ⊖ quarter) ⊗ unit_at E (u + 3)).
  assert (Hs : 0 <= sqrt R0) by apply sqrt_pos.
  assert (Hss : sqrt R0 * sqrt R0 = R0) by (apply sqrt_sqrt; lra).
  pose proof (Hunit (u + 1)%nat) as H1. pose proof (Hunit (u + 2)%nat) as H2.
  pose proof (Hunit (u + 3)%nat) as H3.
  assert (Hd1 : 0 <= d1 <= sqrt R0).
  { change (0 <= 0 + (sqrt R0 - 0) * unit_at E (u + 1) <= sqrt R0).
    split; nra. }
  assert (Hd2 : 0 <= d2 <= sqrt R0).
  { change (0 <= 0 + (sqrt R0 - 0) * unit_at E (u + 2) <= sqrt R0).
    split; nra. }
  assert (Hr : 0 <= d1 * d2 <= R0) by (split; nra).
  assert (Hsp : 1 / 4 <= speed <= 5 / 4).
  { change (1 / 4 <= 1 / 4 + (5 / 4 - 1 / 4) * unit_at E (u + 3) <= 5 / 4).
    lra. }
  destruct (make_star_real (Vec2d cx cy) (galaxy_direction E st) angle
              d1 d2 speed) as (_ & Hoff & _ & _ & Hvel);
    [lra|apply pick_direction_cases|lra|].
  rewrite Hoff, Hvel, make_star_mass_real by lra.
  assert (Hsr : sqrt (d1 * d2) <= sqrt 200) by (apply sqrt_le_1; lra).
  pose proof (sqrt_pos (d1 * d2)) as Hs0.
  split; [lra|]. split; [lra|]. split; [nra|].
  intros Hpos.
  assert (Hsq : 0 < sqrt (d1 * d2)) by (apply sqrt_lt_R0; lra).
  unfold Rdiv. apply Rmult_le_compat_l; [lra|].
  by apply Rinv_le_contravar.
Qed.

(** X8: over the reals, for draws in their ranges: every star that a call
    adds is at most the base radius of the call, which is at most 200, away
    from the centre of the call; it is no faster than [sqrt 200 * 1.25]; off
    the centre its mass is at least [10 / sqrt 200]; and the stars that were
    there come first, as they were. *)
Theorem spawned_stars_in_reach (E : entropy R) (cx cy : R)
  (stars : list (star R)) (st : rng_state) :
  (forall n, 0 <= unit_at E n <= 1) ->
  exists new,
    (addRandomGalaxy E cx cy stars st).1 = stars ++ new
    /\ Forall (fun s =>
         magnitude (vsub (pos s) (Vec2d cx cy)) <= base_radius E st
         /\ base_radius E st <= 200
         /\ magnitude (vel s) <= sqrt 200 * (5 / 4)
         /\ (0 < magnitude (vsub (pos s) (Vec2d cx cy)) ->
             10 / sqrt 200 <= mass s)) new.
Proof.
  intros Hunit. exists (galaxy E cx cy st).
  split; [apply addRandomGalaxy_closed|by apply galaxy_in_reach].
Qed.

Lemma spawned_stars_in_reach_sample :
  exists new,
    (addRandomGalaxy quarter_draws 0 0 [] (RngState 0 0)).1 = [] ++ new
    /\ Forall (fun s =>
         magnitude (vsub (pos s) (Vec2d 0 0))
         <= base_radius quarter_draws (RngState 0 0)
         /\ base_radius quarter_draws (RngState 0 0) <= 200
         /\ magnitude (vel s) <= sqrt 200 * (5 / 4)
         /\ (0 < magnitude (vsub (pos s) (Vec2d 0 0)) ->
             10 / sqrt 200 <= mass s)) new.
Proof.
  apply (spawned_stars_in_reach quarter_draws 0 0 [] (RngState 0 0)
           (proj2 quarter_draws_in_range)).
Defined.
End SpawnBounds.

(** ** The controls of the frame loop *)

Lemma int_of_in_range (z : Z) :
  (INT_MIN <= z <= INT_MAX)%Z -> int_of z = Some z.
Proof.
  intros [Hlo Hhi]. unfold int_of.
  apply Z.leb_le in Hlo, Hhi. by rewrite Hlo, Hhi.
Qed.

Lemma int_of_value (z z' : Z) : int_of z = Some z' -> z' = z.
Proof.
  unfold int_of. destruct (_ && _); [|done]. by intros [= <-].
Qed.

Lemma key_step_mouse_up (c : controls) (v v' : view) :
  key_step c v = Some v' -> mouse_up v' = mouse_up v.
Proof.
  unfold key_step. intros Hk.
  destruct (if key_up c then _ else _) as [y1|]; [|done]. simpl in Hk.
  destruct (if key_down c then _ else _) as [y2|]; [|done]. simpl in Hk.
  destruct (if key_right c then _ else _) as [x1|]; [|done]. simpl in Hk.
  destruct (if key_left c then _ else _) as [x2|]; [|done]. simpl in Hk.
  by injection Hk as <-.
Qed.

Lemma mouse_step_edge (c : controls) (v v1 : view) (click : option (Z * Z)) :
  mouse_step c v = Some (v1, click) ->
  mouse_up v1 = negb (button c)
  /\ length (option_list click)
     = length (if button c && negb (negb (mouse_up v)) then [c] else []).
Proof.
  unfold mouse_step.
  destruct (button c), (mouse_up v) eqn:Hup; simpl.
  - destruct (int_of (mouse_x c - x_offset v)); [|done]. simpl.
    destruct (int_of (mouse_y c - y_offset v)); [|done]. simpl.
    by intros [= <- <-].
  - by intros [= <- <-].
  - by intros [= <- <-].
  - by intros [= <- <-].
Qed.

Lemma mouse_step_click (c : controls) (v v1 : view) (cx cy : Z) :
  mouse_step c v = Some (v1, Some (cx, cy)) ->
  button c = true /\ mouse_up v = true
  /\ cx = (mouse_x c - x_offset v)%Z /\ cy = (mouse_y c - y_offset v)%Z.
Proof.
  unfold mouse_step. destruct (button c), (mouse_up v); simpl; try done.
  destruct (int_of (mouse_x c - x_offset v)) as [x|] eqn:Hx; [|done]. simpl.
  destruct (int_of (mouse_y c - y_offset v)) as [y|] eqn:Hy; [|done]. simpl.
  intros [= _ <- <-].
  by rewrite (int_of_value _ _ Hx), (int_of_value _ _ Hy).
Qed.

(** X9: a galaxy is spawned in the frames in which the left button goes
    down and in no other: over any sequence of frames, [addRandomGalaxy] is
    called as many times as the button goes from up to down, however long
    it is held and wherever the pointer moves, and [mouse_up] ends as the
    negation of the button in the last frame. *)
Theorem one_galaxy_per_press (cs : list controls) (v v' : view)
  (clicks : list (Z * Z)) :
  controls_run cs v = Some (v', clicks) ->
  length clicks = length (presses (negb (mouse_up v)) cs)
  /\ mouse_up v' = negb (default (negb (mouse_up v)) (last (button <$> cs))).
Proof.
  revert v v' clicks. induction cs as [|c cs IH]; intros v v' clicks Hrun.
  - injection Hrun as <- <-. simpl. by rewrite negb_involutive.
  - simpl in Hrun. unfold controls_step in Hrun.
    destruct (mouse_step c v) as [[v1 click]|] eqn:Hm; [|done].
    simpl in Hrun.
    destruct (key_step c v1) as [v2|] eqn:Hk; [|done]. simpl in Hrun.
    destruct (controls_run cs v2) as [[v3 rest]|] eqn:Hr; [|done].
    simpl in Hrun. injection Hrun as <- <-.
    destruct (mouse_step_edge _ _ _ _ Hm) as [Hup Hlen].
    destruct (IH _ _ _ Hr) as [IHlen IHup].
    rewrite (key_step_mouse_up _ _ _ Hk), Hup, negb_involutive in IHlen, IHup.
    split.
    + cbn [presses]. by rewrite !length_app, Hlen, IHlen.
    + rewrite IHup, fmap_cons, last_cons. by destruct (last _).
Qed.

Lemma held_cons (key : controls -> bool) (c : controls) (cs : list controls) :
  held key (c :: cs) = (Z.b2z (key c) + held key cs)%Z.
Proof.
  unfold held. rewrite filter_cons.
  destruct (key c); case_decide; try done; simpl length; simpl Z.b2z; lia.
Qed.

Lemma key_step_offsets (c : controls) (v : view) :
  (Z.abs (x_offset v) < 2 ^ 30)%Z -> (Z.abs (y_offset v) < 2 ^ 30)%Z ->
  key_step c v
  = Some (View (mouse_up v)
               (x_offset v + Z.b2z (key_left c) - Z.b2z (key_right c))
               (y_offset v + Z.b2z (key_up c) - Z.b2z (key_down c))).
Proof.
  intros Hx Hy. unfold key_step.
  assert (Hint : forall z, (Z.abs z <= 2 ^ 30)%Z -> int_of z = Some z).
  { intros z Hz. apply int_of_in_range. unfold INT_MIN, INT_MAX. lia. }
  destruct (key_up c), (key_down c), (key_right c), (key_left c);
    simpl Z.b2z; cbn [mbind option_bind];
    repeat (rewrite Hint by lia; cbn [mbind option_bind]);
    f_equal; f_equal; lia.
Qed.

Lemma controls_run_offsets (cs : list controls) (v : view) :
  (Z.abs (x_offset v) + Z.of_nat (length cs) <= 2 ^ 30)%Z ->
  (Z.abs (y_offset v) + Z.of_nat (length cs) <= 2 ^ 30)%Z ->
  Forall (fun c => (Z.abs (mouse_x c) <= 2 ^ 30)%Z
                   /\ (Z.abs (mouse_y c) <= 2 ^ 30)%Z) cs ->
  exists v' clicks,
    controls_run cs v = Some (v', clicks)
    /\ x_offset v' = (x_offset v + held key_left cs - held key_right cs)%Z
    /\ y_offset v' = (y_offset v + held key_up cs - held key_down cs)%Z.
Proof.
  revert v. induction cs as [|c cs IH]; intros v Hx Hy Hm.
  - exists v, []. unfold held. simpl. repeat split; lia.
  - apply Forall_cons in Hm as [[Hmx Hmy] Hm]. simpl length in Hx, Hy.
    assert (Hint : forall z, (Z.abs z < 2 ^ 31)%Z -> int_of z = Some z).
    { intros z Hz. apply int_of_in_range. unfold INT_MIN, INT_MAX. lia. }
    assert (exists v1 click,
              mouse_step c v = Some (v1, click)
              /\ x_offset v1 = x_offset v /\ y_offset v1 = y_offset v)
      as (v1 & click & Hstep & Hx1 & Hy1).
    { unfold mouse_step. destruct (button c), (mouse_up v).
      - rewrite !Hint by lia. simpl. by eexists _, _.
      - by eexists _, _.
      - by eexists _, _.
      - by eexists _, _. }
    pose proof (key_step_offsets c v1) as Hk.
    rewrite Hx1, Hy1 in Hk. specialize (Hk ltac:(lia) ltac:(lia)).
    destruct (IH (View (mouse_up v1)
                    (x_offset v + Z.b2z (key_left c) - Z.b2z (key_right c))
                    (y_offset v + Z.b2z (key_up c) - Z.b2z (key_down c))))
      as (v' & clicks & Hrun & Hx' & Hy'); [| |done|].
    + simpl. destruct (key_left c), (key_right c); simpl Z.b2z; lia.
    + simpl. destruct (key_up c), (key_down c); simpl Z.b2z; lia.
    + exists v', (option_list click ++ clicks).
      cbn [controls_run]. unfold controls_step.
      rewrite Hstep. simpl. rewrite Hk. simpl. rewrite Hrun. simpl.
      split; [done|]. rewrite !held_cons, Hx', Hy'. simpl. lia.
Qed.

(** X10: the offset of the view counts the arrow keys: from the start of
    [main], after any sequence of at most 2^30 frames with the pointer
    within 2^30 of the origin, the controls have run without leaving the
    range of [int], and [x_offset] is the number of frames with LEFT down
    minus the number with RIGHT down, [y_offset] the number with UP down
    minus the number with DOWN down. *)
Theorem offsets_count_keys (cs : list controls) :
  (Z.of_nat (length cs) <= 2 ^ 30)%Z ->
  Forall (fun c => (Z.abs (mouse_x c) <= 2 ^ 30)%Z
                   /\ (Z.abs (mouse_y c) <= 2 ^ 30)%Z) cs ->
  exists v' clicks,
    controls_run cs view_init = Some (v', clicks)
    /\ x_offset v' = (held key_left cs - held key_right cs)%Z
    /\ y_offset v' = (held key_up cs - held key_down cs)%Z.
Proof.
  intros Hlen Hm.
  destruct (controls_run_offsets cs view_init) as (v' & clicks & Hrun & Hx & Hy);
    [simpl; lia|simpl; lia|done|].
  exists v', clicks. split; [done|]. rewrite Hx, Hy. simpl. lia.
Qed.

(** ** Drawing a star *)

Lemma Rleb_le (a b : R) : Rleb a b = true <-> (a <= b)%R.
Proof. unfold Rleb. by destruct (Rle_dec a b). Qed.

Lemma Rltb_lt (a b : R) : Rltb a b = true <-> (a < b)%R.
Proof. unfold Rltb. by destruct (Rlt_dec a b). Qed.

(** The counter of the source in binary32: it steps by one below 2^24 and
    stays at 2^24. *)
Example counter_binary32 :
  next (float_of_Z 0) = float_of_Z 1
  /\ next (float_of_Z 1) = float_of_Z 2
  /\ next (float_of_Z 8388607) = float_of_Z 8388608
  /\ next (float_of_Z 16777215) = float_of_Z 16777216
  /\ next (float_of_Z 16777216) = float_of_Z 16777216.
Proof. vm_compute. repeat split; reflexivity. Qed.

Section DrawProofs.
Local Open Scope R_scope.
Variable v : view.
Variables center_x center_y radius : R.

Lemma in_bound_le (x : R) :
  in_bound x radius = true <-> x <= radius * (11 / 10).
Proof. apply Rleb_le. Qed.

Lemma next_below (x : R) : x < counter_max -> next x = x + 1.
Proof. intros Hx. simpl. by destruct (Rlt_dec x counter_max). Qed.

Lemma next_at_most (n : Z) :
  (0 <= n <= 16777216)%Z ->
  exists n', next (IZR n) = IZR n' /\ (0 <= n' <= 16777216)%Z.
Proof.
  intros Hn. simpl. unfold counter_max.
  destruct (Rlt_dec (IZR n) 16777216) as [Hlt|_].
  - apply lt_IZR in Hlt. exists (n + 1)%Z. rewrite plus_IZR. split; [done|lia].
  - by exists n.
Qed.

Section Small.
Hypothesis Hsmall : radius * (11 / 10) < counter_max.

Lemma draw_column_disc (x : R) (fuel j : nat) :
  (0 < fuel)%nat -> radius * (11 / 10) + 1 < INR (fuel + j) ->
  exists pts,
    draw_column fuel v center_x center_y radius x (INR j) = Some pts
    /\ forall p, p ∈ pts <->
         exists k, (j <= k)%nat /\ INR k <= radius * (11 / 10)
           /\ sqrt (x * x + INR k * INR k) < radius
           /\ p ∈ plot v center_x center_y x (INR k).
Proof using Hsmall.
  revert j. induction fuel as [|fuel IH]; intros j Hpos Hfuel; [lia|].
  cbn [draw_column]. destruct (in_bound (INR j) radius) eqn:Hle.
  - apply in_bound_le in Hle.
    assert (Hfuel' : radius * (11 / 10) + 1 < INR (fuel + S j)).
    { by replace (fuel + S j)%nat with (S fuel + j)%nat by lia. }
    assert (Hpos' : (0 < fuel)%nat).
    { destruct fuel; [|lia]. simpl plus in Hfuel. rewrite S_INR in Hfuel. lra. }
    destruct (IH (S j) Hpos' Hfuel') as (pts & Hrun & Hpts).
    rewrite next_below by lra.
    rewrite S_INR in Hrun. rewrite Hrun. cbn [mbind option_bind].
    eexists. split; [done|]. intros p. rewrite elem_of_app, Hpts.
    change (distance x (INR j)) with (sqrt (x * x + INR j * INR j)).
    change (n_ltb ?a ?b) with (Rltb a b).
    split.
    + intros [Hin|(k & Hk & H)].
      * destruct (Rltb _ radius) eqn:Hlt; [|by apply elem_of_nil in Hin].
        apply Rltb_lt in Hlt. by exists j.
      * exists k. split; [lia|done].
    + intros (k & Hk & Hkb & Hlt & Hin).
      destruct (decide (k = j)) as [->|Hne].
      * left. apply Rltb_lt in Hlt. by rewrite Hlt.
      * right. exists k. split; [lia|done].
  - eexists. split; [done|]. intros p. split; [by intros ?%elem_of_nil|].
    intros (k & Hk & Hkb & _). apply le_INR in Hk.
    assert (Hno : ~ INR j <= radius * (11 / 10)).
    { intros Hj. apply in_bound_le in Hj. congruence. }
    lra.
Qed.

Lemma draw_rows_disc (inner fuel i : nat) :
  (0 < inner)%nat -> radius * (11 / 10) + 1 < INR inner ->
  (0 < fuel)%nat -> radius * (11 / 10) + 1 < INR (fuel + i) ->
  exists pts,
    draw_rows inner fuel v center_x center_y radius (INR i) = Some pts
    /\ forall p, p ∈ pts <->
         exists a k, (i <= a)%nat /\ INR a <= radius * (11 / 10)
           /\ INR k <= radius * (11 / 10)
           /\ sqrt (INR a * INR a + INR k * INR k) < radius
           /\ p ∈ plot v center_x center_y (INR a) (INR k).
Proof using Hsmall.
  intros Hin0 Hin. revert i.
  induction fuel as [|fuel IH]; intros i Hpos Hfuel; [lia|].
  cbn [draw_rows]. destruct (in_bound (INR i) radius) eqn:Hle.
  - apply in_bound_le in Hle.
    assert (Hfuel' : radius * (11 / 10) + 1 < INR (fuel + S i)).
    { by replace (fuel + S i)%nat with (S fuel + i)%nat by lia. }
    assert (Hpos' : (0 < fuel)%nat).
    { destruct fuel; [|lia]. simpl plus in Hfuel. rewrite S_INR in Hfuel. lra. }
    destruct (draw_column_disc (INR i) inner 0 Hin0) as (col & Hcol & Hcols).
    { by rewrite Nat.add_0_r. }
    destruct (IH (S i) Hpos' Hfuel') as (pts & Hrun & Hpts).
    change (of_Z 0) with (INR 0). rewrite Hcol. cbn [mbind option_bind].
    rewrite next_below by lra.
    rewrite S_INR in Hrun. rewrite Hrun. cbn [mbind option_bind].
    eexists. split; [done|]. intros p. rewrite elem_of_app, Hcols, Hpts.
    split.
    + intros [(k & _ & H)|(a & k & Ha & H)].
      * by exists i, k.
      * exists a, k. split; [lia|done].
    + intros (a & k & Ha & Hab & H).
      destruct (decide (a = i)) as [->|Hne].
      * left. exists k. split; [lia|]. tauto.
      * right. exists a, k. split; [lia|done].
  - eexists. split; [done|]. intros p. split; [by intros ?%elem_of_nil|].
    intros (a & k & Ha & Hab & _). apply le_INR in Ha.
    assert (Hno : ~ INR i <= radius * (11 / 10)).
    { intros Hj. apply in_bound_le in Hj. congruence. }
    lra.
Qed.
End Small.

Section Huge.
Hypothesis Hhuge : counter_max <= radius * (11 / 10).

Lemma draw_column_stuck (x : R) (fuel : nat) :
  forall n : Z, (0 <= n <= 16777216)%Z ->
    draw_column fuel v center_x center_y radius x (IZR n) = None.
Proof using Hhuge.
  induction fuel as [|fuel IH]; intros n Hn; [done|].
  cbn [draw_column].
  assert (Hle : in_bound (IZR n) radius = true).
  { apply in_bound_le. unfold counter_max in Hhuge.
    assert (IZR n <= 16777216) by (apply IZR_le; lia). lra. }
  rewrite Hle. destruct (next_at_most n Hn) as (n' & -> & Hn').
  by rewrite IH.
Qed.

Lemma draw_rows_stuck (inner fuel : nat) :
  draw_rows inner fuel v center_x center_y radius 0 = None.
Proof using Hhuge.
  destruct fuel as [|fuel]; [done|]. cbn [draw_rows].
  assert (Hle : in_bound 0 radius = true).
  { apply in_bound_le. unfold counter_max in Hhuge. lra. }
  rewrite Hle. change (of_Z 0) with (IZR 0).
  by rewrite draw_column_stuck by lia.
Qed.
End Huge.
End DrawProofs.

Section DrawClaims.
Local Open Scope R_scope.
Context {SH : StarShape R}.

Lemma plot_lattice (v : view) (center_x center_y : R) (i k : nat) (p : R * R) :
  p ∈ plot v center_x center_y (INR i) (INR k) <->
  exists a b : Z,
    Z.abs_nat a = i /\ Z.abs_nat b = k
    /\ p = (center_x + IZR a + IZR (x_offset v),
            center_y + IZR b + IZR (y_offset v)).
Proof.
  unfold plot. rewrite !elem_of_cons, elem_of_nil.
  change (@n_add R R_arith) with Rplus. change (@n_sub R R_arith) with Rminus.
  change (@of_Z R R_arith) with IZR. split.
  - assert (Hi : Z.abs_nat (Z.of_nat i) = i) by lia.
    assert (Hk : Z.abs_nat (Z.of_nat k) = k) by lia.
    assert (Hi' : Z.abs_nat (- Z.of_nat i) = i) by lia.
    assert (Hk' : Z.abs_nat (- Z.of_nat k) = k) by lia.
    intros [->|[->|[->|[->|[]]]]].
    + exists (Z.of_nat i), (Z.of_nat k).
      by rewrite <- !INR_IZR_INZ.
    + exists (Z.of_nat i), (- Z.of_nat k)%Z.
      rewrite opp_IZR, <- !INR_IZR_INZ.
      split; [done|split; [done|f_equal; lra]].
    + exists (- Z.of_nat i)%Z, (- Z.of_nat k)%Z.
      rewrite !opp_IZR, <- !INR_IZR_INZ.
      split; [done|split; [done|f_equal; lra]].
    + exists (- Z.of_nat i)%Z, (Z.of_nat k).
      rewrite opp_IZR, <- !INR_IZR_INZ.
      split; [done|split; [done|f_equal; lra]].
  - intros (a & b & <- & <- & ->).
    rewrite !INR_IZR_INZ, !Zabs2Nat.id_abs.
    destruct (Z.abs_spec a) as [[_ ->]|[_ ->]],
             (Z.abs_spec b) as [[_ ->]|[_ ->]]; rewrite ?opp_IZR.
    + by left.
    + right; left. f_equal; lra.
    + do 3 right; left. f_equal; lra.
    + do 2 right; left. f_equal; lra.
Qed.

Lemma abs_nat_square (a : Z) :
  INR (Z.abs_nat a) * INR (Z.abs_nat a) = IZR a * IZR a.
Proof.
  rewrite INR_IZR_INZ, Zabs2Nat.id_abs.
  destruct (Z.abs_spec a) as [[_ ->]|[_ ->]]; rewrite ?opp_IZR; lra.
Qed.

Lemma inside_bound (radius x y : R) :
  0 <= x -> sqrt (x * x + y * y) < radius -> x <= radius * (11 / 10).
Proof.
  intros Hx Hlt.
  assert (x <= sqrt (x * x + y * y)).
  { rewrite <- (sqrt_square x) at 1 by done. apply sqrt_le_1_alt. nra. }
  lra.
Qed.

Lemma draw_rows_lattice (v : view) (center_x center_y radius : R)
  (fuel : nat) :
  (0 < fuel)%nat -> radius * (11 / 10) + 1 < INR fuel ->
  radius * (11 / 10) < counter_max ->
  exists pts,
    draw_rows fuel fuel v center_x center_y radius 0 = Some pts
    /\ forall p, p ∈ pts <->
         exists a b : Z,
           sqrt (IZR a * IZR a + IZR b * IZR b) < radius
           /\ p = (center_x + IZR a + IZR (x_offset v),
                   center_y + IZR b + IZR (y_offset v)).
Proof.
  intros Hpos Hfuel Hsmall.
  destruct (draw_rows_disc v center_x center_y radius Hsmall fuel fuel 0)
    as (pts & Hrun & Hpts); [done|done|done|by rewrite Nat.add_0_r|].
  exists pts. split; [done|]. intros p. rewrite Hpts. split.
  - intros (i & k & _ & _ & _ & Hlt & Hin).
    apply plot_lattice in Hin as (a & b & <- & <- & ->).
    exists a, b. by rewrite !abs_nat_square in Hlt.
  - intros (a & b & Hlt & ->).
    exists (Z.abs_nat a), (Z.abs_nat b). rewrite !abs_nat_square.
    split; [lia|]. split; [|split; [|split; [done|]]].
    + apply inside_bound with (INR (Z.abs_nat b)); [apply pos_INR|].
      by rewrite !abs_nat_square.
    + apply inside_bound with (INR (Z.abs_nat a)); [apply pos_INR|].
      by rewrite !abs_nat_square, Rplus_comm.
    + apply plot_lattice. by exists a, b.
Qed.

(** X11: over exact real arithmetic, with counters that stop at 2^24 as
    those of the source do, and for a star with [radius*1.1] below 2^24:
    [drawStar] ends, and it plots a disc: the coordinates handed to the
    bitmap are exactly the points [pos + (a, b) + offset], [a] and [b]
    integers, whose distance [sqrt(a*a + b*b)] from the star is less than
    its radius; the margin of the loop bound [radius*1.1] cuts none of them
    off. *)
Theorem drawStar_plots_disc (fuel : nat) (v : view) (s : star R) :
  (0 < fuel)%nat -> radius s * (11 / 10) + 1 < INR fuel ->
  radius s * (11 / 10) < counter_max ->
  exists pts,
    drawStar fuel v s = Some pts
    /\ forall p, p ∈ pts <->
         exists a b : Z,
           sqrt (IZR a * IZR a + IZR b * IZR b) < radius s
           /\ p = (vec_x (pos s) + IZR a + IZR (x_offset v),
                   vec_y (pos s) + IZR b + IZR (y_offset v)).
Proof.
  intros Hpos Hfuel Hsmall. unfold drawStar. by apply draw_rows_lattice.
Qed.

(** X16: with the same counters, for a star with [radius*1.1] at 2^24 or
    above [drawStar] does not return: the counter [y] of the inner loop
    stops at 2^24 and never exceeds the bound, whatever the number of steps
    the loops are given. *)
Theorem drawStar_huge_radius_never_returns (fuel : nat) (v : view)
  (s : star R) :
  counter_max <= radius s * (11 / 10) -> drawStar fuel v s = None.
Proof.
  intros Hhuge. unfold drawStar. by apply draw_rows_stuck.
Qed.
End DrawClaims.

(** In binary32 a counter that has come to 2^24 stays within the bound
    [radius*1.1] if it is within it once: from there the inner loop does not
    return. *)
Lemma draw_column_stuck_binary32 (v : view) (center_x center_y radius x : float)
  (fuel : nat) :
  in_bound (float_of_Z 16777216) radius = true ->
  draw_column fuel v center_x center_y radius x (float_of_Z 16777216) = None.
Proof.
  intros Hle. induction fuel as [|fuel IH]; [done|].
  cbn [draw_column]. rewrite Hle.
  replace (next (float_of_Z 16777216)) with (float_of_Z 16777216)
    by (vm_compute; reflexivity).
  by rewrite IH.
Qed.

(** ** Scrolling *)

Lemma key_step_moves (c : controls) (v v' : view) :
  key_step c v = Some v' ->
  x_offset v' = (x_offset v + (Z.b2z (key_left c) - Z.b2z (key_right c)))%Z
  /\ y_offset v' = (y_offset v + (Z.b2z (key_up c) - Z.b2z (key_down c)))%Z.
Proof.
  unfold key_step. intros Hk.
  destruct (if key_up c then _ else _) as [y1|] eqn:H1; [|done].
  cbn [mbind option_bind] in Hk.
  destruct (if key_down c then _ else _) as [y2|] eqn:H2; [|done].
  cbn [mbind option_bind] in Hk.
  destruct (if key_right c then _ else _) as [x1|] eqn:H3; [|done].
  cbn [mbind option_bind] in Hk.
  destruct (if key_left c then _ else _) as [x2|] eqn:H4; [|done].
  cbn [mbind option_bind] in Hk. injection Hk as <-. simpl.
  assert (Hy1 : y1 = (y_offset v + Z.b2z (key_up c))%Z).
  { destruct (key_up c); [apply int_of_value in H1|injection H1 as <-];
      simpl; lia. }
  assert (Hy2 : y2 = (y1 - Z.b2z (key_down c))%Z).
  { destruct (key_down c); [apply int_of_value in H2|injection H2 as <-];
      simpl; lia. }
  assert (Hx1 : x1 = (x_offset v - Z.b2z (key_right c))%Z).
  { destruct (key_right c); [apply int_of_value in H3|injection H3 as <-];
      simpl; lia. }
  assert (Hx2 : x2 = (x1 + Z.b2z (key_left c))%Z).
  { destruct (key_left c); [apply int_of_value in H4|injection H4 as <-];
      simpl; lia. }
  lia.
Qed.

Section Scroll.
Local Open Scope R_scope.
Variables v v' : view.
Variables dx dy : Z.
Hypothesis Hdx : x_offset v' = (x_offset v + dx)%Z.
Hypothesis Hdy : y_offset v' = (y_offset v + dy)%Z.

Lemma plot_moved (center_x center_y x y : R) :
  plot v' center_x center_y x y = moved dx dy <$> plot v center_x center_y x y.
Proof using Hdx Hdy.
  assert (Hp : forall a b,
    (a + IZR (x_offset v + dx), b + IZR (y_offset v + dy))
    = moved dx dy (a + IZR (x_offset v), b + IZR (y_offset v))).
  { intros a b. unfold moved. simpl. rewrite !plus_IZR. f_equal; lra. }
  unfold plot.
  change (@n_add R R_arith) with Rplus. change (@n_sub R R_arith) with Rminus.
  change (@of_Z R R_arith) with IZR.
  rewrite Hdx, Hdy, !Hp. done.
Qed.

Lemma draw_column_moved (fuel : nat) (center_x center_y radius x y : R) :
  draw_column fuel v' center_x center_y radius x y
  = scrolled dx dy <$> draw_column fuel v center_x center_y radius x y.
Proof using Hdx Hdy.
  revert y. induction fuel as [|fuel IH]; intros y; [done|].
  cbn [draw_column]. destruct (in_bound y radius); [|done].
  rewrite IH. destruct (draw_column fuel v _ _ _ _ _) as [rest|]; [|done].
  cbn [mbind option_bind fmap option_fmap option_map].
  unfold scrolled. rewrite fmap_app, plot_moved. by destruct (n_ltb _ _).
Qed.

Lemma draw_rows_moved (inner fuel : nat) (center_x center_y radius x : R) :
  draw_rows inner fuel v' center_x center_y radius x
  = scrolled dx dy <$> draw_rows inner fuel v center_x center_y radius x.
Proof using Hdx Hdy.
  revert x. induction fuel as [|fuel IH]; intros x; [done|].
  cbn [draw_rows]. destruct (in_bound x radius); [|done].
  rewrite draw_column_moved, IH.
  destruct (draw_column inner v _ _ _ _ _) as [column|]; [|done].
  cbn [mbind option_bind fmap option_fmap option_map].
  destruct (draw_rows inner fuel v _ _ _ _) as [rest|]; [|done].
  cbn [mbind option_bind fmap option_fmap option_map].
  unfold scrolled. by rewrite fmap_app.
Qed.
End Scroll.

(** X12: the arrow keys move the picture: whatever [drawStar] plots for a
    star before the keys of a frame are handled, it plots after them one
    pixel to the right for LEFT, one to the left for RIGHT, one down for UP
    and one up for DOWN (the y axis of the bitmap points down), in the same
    order, and it fails to end after them exactly if it did before. *)
Theorem keys_scroll_picture {SH : StarShape R} (c : controls) (v v' : view)
  (fuel : nat) (s : star R) :
  key_step c v = Some v' ->
  drawStar fuel v' s
  = scrolled (Z.b2z (key_left c) - Z.b2z (key_right c))
             (Z.b2z (key_up c) - Z.b2z (key_down c))
    <$> drawStar fuel v s.
Proof.
  intros [Hx Hy]%key_step_moves. unfold drawStar.
  by apply draw_rows_moved.
Qed.

(** ** Workers with different numbers *)

Lemma owns_one_number (id1 id2 : Z) (k : nat) :
  id1 <> id2 -> owns id1 k = true -> owns id2 k = false.
Proof.
  unfold owns. intros Hne H1%Z.eqb_eq. apply Z.eqb_neq. congruence.
Qed.

(** X13: two workers with different numbers write different stars: no index
    belongs to both, and a pass of one of them completes and leaves every
    star of the other as it is. *)
Theorem workers_write_apart {num : Type} `{Arith num}
  (id1 id2 : Z) (stars : list (star num)) :
  id1 <> id2 ->
  (forall k, owns id1 k = true -> owns id2 k = false)
  /\ exists out,
       thread_fn id2 stars = Some out
       /\ length out = length stars
       /\ forall k, owns id1 k = true -> out !! k = stars !! k.
Proof.
  intros Hne. split; [intros k; by apply owns_one_number|].
  destruct (thread_fn_frame id2 stars) as (out & Hrun & Hlen & Hframe).
  exists out. split; [done|]. split; [done|].
  intros k Hk. apply Hframe. by apply (owns_one_number id1).
Qed.

Lemma workers_write_apart_0_1 :
  (forall k, owns 0 k = true -> owns 1 k = false)
  /\ exists out,
       thread_fn 1 [light_star; apart_star] = Some out
       /\ length out = length [light_star; apart_star]
       /\ forall k, owns 0 k = true -> out !! k = [light_star; apart_star] !! k.
Proof. apply (workers_write_apart 0 1 [light_star; apart_star]). lia. Defined.

(** ** The controls on four frames *)

Lemma one_galaxy_per_press_two_clicks :
  length [(400, 300); (99, 49)]%Z
  = length (presses (negb (mouse_up view_init)) two_clicks)
  /\ mouse_up (View false 1 1)
     = negb (default (negb (mouse_up view_init)) (last (button <$> two_clicks))).
Proof.
  apply (one_galaxy_per_press two_clicks view_init (View false 1 1)
           [(400, 300); (99, 49)]%Z eq_refl).
Defined.

Lemma offsets_count_keys_two_clicks :
  exists v' clicks,
    controls_run two_clicks view_init = Some (v', clicks)
    /\ x_offset v' = (held key_left two_clicks - held key_right two_clicks)%Z
    /\ y_offset v' = (held key_up two_clicks - held key_down two_clicks)%Z.
Proof.
  apply (offsets_count_keys two_clicks); [simpl; lia|].
  repeat (constructor; [simpl; lia|]). constructor.
Defined.

(** ** Stars on the screen *)

Section DrawSamples.
#[local] Existing Instance sample_shape.
Local Open Scope R_scope.

Lemma radius_resting_2500 : radius (resting 2500) = 5.
Proof.
  unfold radius, resting. simpl.
  replace 2500 with (50 * 50) by lra. rewrite sqrt_square by lra. lra.
Qed.

Lemma radius_resting_huge :
  radius (resting 72057594037927936) = 268435456 / 10.
Proof.
  unfold radius, resting. simpl.
  replace 72057594037927936 with (268435456 * 268435456) by lra.
  rewrite sqrt_square by lra. done.
Qed.

Lemma drawStar_plots_disc_radius_5 :
  exists pts,
    drawStar 7 view_init (resting 2500) = Some pts
    /\ forall p, p ∈ pts <->
         exists a b : Z,
           sqrt (IZR a * IZR a + IZR b * IZR b) < radius (resting 2500)
           /\ p = (vec_x (pos (resting 2500)) + IZR a
                   + IZR (x_offset view_init),
                   vec_y (pos (resting 2500)) + IZR b
                   + IZR (y_offset view_init)).
Proof.
  apply (drawStar_plots_disc 7 view_init (resting 2500)); [lia| |];
    rewrite radius_resting_2500; unfold counter_max; simpl; lra.
Defined.

Lemma drawStar_huge_radius_sample :
  drawStar 1000 view_init (resting 72057594037927936) = None.
Proof.
  apply (drawStar_huge_radius_never_returns 1000 view_init
           (resting 72057594037927936)).
  rewrite radius_resting_huge. unfold counter_max. lra.
Defined.

Lemma keys_scroll_picture_left :
  drawStar 7 (View true 1 0) (resting 2500)
  = scrolled (Z.b2z (key_left left_key) - Z.b2z (key_right left_key))
             (Z.b2z (key_up left_key) - Z.b2z (key_down left_key))
    <$> drawStar 7 view_init (resting 2500).
Proof.
  apply (keys_scroll_picture left_key view_init (View true 1 0) 7
           (resting 2500) eq_refl).
Defined.

(** In binary32, with the bound and the distance in binary64 as the source
    has them: a star of mass 400, radius 2, at (10, 20) under the offset
    (1, 0) is plotted on the nine points of the disc, in the order of the
    calls. *)
Example drawStar_binary32 :
  drawStar 4 (View true 1 0)
           (new_star (float_of_Z 400)
                     (Vec2d (float_of_Z 10) (float_of_Z 20)) vzero)
  = Some ((fun p : Z * Z => (float_of_Z p.1, float_of_Z p.2))
          <$> [(11, 20); (11, 20); (11, 20); (11, 20);
               (11, 21); (11, 19); (11, 19); (11, 21);
               (12, 20); (12, 20); (10, 20); (10, 20);
               (12, 21); (12, 19); (10, 19); (10, 21)]%Z).
Proof. vm_compute. reflexivity. Qed.
End DrawSamples.

(** ** From a click to the screen *)

Section Pointer.
Local Open Scope R_scope.

Lemma norm_triangle (a b c d : R) :
  sqrt ((a + c) * (a + c) + (b + d) * (b + d))
  <= sqrt (a * a + b * b) + sqrt (c * c + d * d).
Proof.
  set (u := sqrt (a * a + b * b)). set (w := sqrt (c * c + d * d)).
  assert (Hu : 0 <= u) by apply sqrt_pos.
  assert (Hw : 0 <= w) by apply sqrt_pos.
  assert (Hu2 : u * u = a * a + b * b) by (apply sqrt_sqrt; nra).
  assert (Hw2 : w * w = c * c + d * d) by (apply sqrt_sqrt; nra).
  assert (Hcs : a * c + b * d <= u * w).
  { destruct (Rle_dec (a * c + b * d) 0) as [Hneg|Hpos]; [nra|].
    apply Rnot_le_lt in Hpos.
    assert (Hsq : (a * c + b * d) * (a * c + b * d) <= (u * w) * (u * w)).
    { replace ((u * w) * (u * w)) with ((u * u) * (w * w)) by ring.
      rewrite Hu2, Hw2.
      pose proof (Rle_0_sqr (a * d - b * c)) as Hd. unfold Rsqr in Hd. nra. }
    apply Rsqr_incr_0_var; [exact Hsq|nra]. }
  rewrite <- (sqrt_square (u + w)) by lra.
  apply sqrt_le_1_alt. nra.
Qed.

Lemma controls_step_click (c : controls) (v v2 : view) (cx cy : Z) :
  controls_step c v = Some (v2, Some (cx, cy)) ->
  cx = (mouse_x c - x_offset v)%Z /\ cy = (mouse_y c - y_offset v)%Z
  /\ x_offset v2
     = (x_offset v + (Z.b2z (key_left c) - Z.b2z (key_right c)))%Z
  /\ y_offset v2
     = (y_offset v + (Z.b2z (key_up c) - Z.b2z (key_down c)))%Z.
Proof.
  unfold controls_step. intros Hstep.
  destruct (mouse_step c v) as [[v1 click]|] eqn:Hm; [|done].
  cbn [mbind option_bind] in Hstep.
  destruct (key_step c v1) as [v2'|] eqn:Hk; [|done].
  cbn [mbind option_bind] in Hstep. injection Hstep as -> ->.
  assert (Hv1 : x_offset v1 = x_offset v /\ y_offset v1 = y_offset v).
  { unfold mouse_step in Hm.
    destruct (button c), (mouse_up v); try discriminate.
    destruct (int_of (mouse_x c - x_offset v)); [|discriminate].
    destruct (int_of (mouse_y c - y_offset v)); [|discriminate].
    simpl in Hm. by injection Hm as <- _ _. }
  apply mouse_step_click in Hm as (_ & _ & -> & ->).
  apply key_step_moves in Hk as [Hx Hy].
  destruct Hv1 as [Hx1 Hy1]. rewrite Hx1 in Hx. rewrite Hy1 in Hy. done.
Qed.

(** X14: a click puts the galaxy under the pointer.  In a frame in which the
    button goes down, the spawner is called with the pointer minus the
    offset of the view, and the arrow keys of the frame then move the view;
    for draws in their ranges, whatever [drawStar] plots for a star of the
    new galaxy, as the spawner has made it and under the view that the
    frame draws with, is less than the base radius of the galaxy plus the
    radius of the star away from the pointer moved as the keys of the frame
    move the picture.  (Between the click and the drawing the merger and
    the workers run: they may merge or move the star, which this does not
    follow.) *)
Theorem click_galaxy_under_pointer {SH : StarShape R} (E : entropy R)
  (c : controls) (v v2 : view) (cx cy : Z) (stars : list (star R))
  (st : rng_state) :
  (forall n, 0 <= unit_at E n <= 1) ->
  controls_step c v = Some (v2, Some (cx, cy)) ->
  exists new,
    (addRandomGalaxy E (of_Z cx) (of_Z cy) stars st).1 = stars ++ new
    /\ forall (s : star R) (fuel : nat),
         s ∈ new -> (0 < fuel)%nat -> radius s * (11 / 10) + 1 < INR fuel ->
         radius s * (11 / 10) < counter_max ->
         exists pts,
           drawStar fuel v2 s = Some pts
           /\ forall p, p ∈ pts ->
                let px := IZR (mouse_x c
                               + (Z.b2z (key_left c) - Z.b2z (key_right c))) in
                let py := IZR (mouse_y c
                               + (Z.b2z (key_up c) - Z.b2z (key_down c))) in
                sqrt ((p.1 - px) * (p.1 - px) + (p.2 - py) * (p.2 - py))
                < base_radius E st + radius s.
Proof.
  intros Hunit Hclick.
  exists (galaxy E (of_Z cx) (of_Z cy) st).
  split; [apply addRandomGalaxy_closed|].
  intros s fuel Hs Hpos Hfuel Hsmall.
  pose proof (galaxy_in_reach E (of_Z cx) (of_Z cy) st Hunit) as Hreach.
  rewrite Forall_forall in Hreach. destruct (Hreach s Hs) as (Hnear & _).
  destruct (draw_rows_lattice v2 (vec_x (pos s)) (vec_y (pos s)) (radius s)
              fuel Hpos Hfuel Hsmall) as (pts & Hrun & Hpts).
  exists pts. split; [done|]. intros p Hp.
  apply Hpts in Hp as (a & b & Hab & ->).
  apply controls_step_click in Hclick as (-> & -> & -> & ->).
  unfold magnitude, vsub in Hnear. simpl in Hnear.
  rewrite !minus_IZR in Hnear. cbv zeta. simpl fst. simpl snd.
  rewrite !plus_IZR.
  eapply Rle_lt_trans; [|apply Rplus_le_lt_compat; [apply Hnear|apply Hab]].
  etrans; [|apply norm_triangle]. apply Req_le. f_equal. ring.
Qed.

End Pointer.

Section PointerSample.
#[local] Existing Instance sample_shape.
Local Open Scope R_scope.

Lemma click_galaxy_under_pointer_sample :
  exists new,
    (addRandomGalaxy quarter_draws (of_Z 400) (of_Z 300) [] (RngState 0 0)).1
    = [] ++ new
    /\ forall (s : star R) (fuel : nat),
         s ∈ new -> (0 < fuel)%nat -> radius s * (11 / 10) + 1 < INR fuel ->
         radius s * (11 / 10) < counter_max ->
         exists pts,
           drawStar fuel (View false 1 0) s = Some pts
           /\ forall p, p ∈ pts ->
                let px := IZR (mouse_x click_left
                               + (Z.b2z (key_left click_left)
                                  - Z.b2z (key_right click_left))) in
                let py := IZR (mouse_y click_left
                               + (Z.b2z (key_up click_left)
                                  - Z.b2z (key_down click_left))) in
                sqrt ((p.1 - px) * (p.1 - px) + (p.2 - py) * (p.2 - py))
                < base_radius quarter_draws (RngState 0 0) + radius s.
Proof.
  apply (click_galaxy_under_pointer quarter_draws click_left
           view_init (View false 1 0) 400 300 [] (RngState 0 0)
           (proj2 quarter_draws_in_range) eq_refl).
Defined.
End PointerSample.

(** ** The coordinator's part of a frame *)

Section FrameProofs.
Context {num : Type} `{Arith num} `{StarShape num}.

Lemma filter_keeps_length (l : list (star num)) :
  length (filter (fun s => nan_pos s = false) l) = length l ->
  filter (fun s => nan_pos s = false) l = l.
Proof.
  induction l as [|a l IH]; [done|]. rewrite filter_cons.
  pose proof (length_filter (fun s => nan_pos s = false) l) as Hle.
  destruct (decide _); simpl; intros Hlen.
  - f_equal. apply IH. lia.
  - lia.
Qed.

(** X15: the purge and the merger of a frame, one after the other, always
    complete and never add a star, and together they leave the collection
    as it is exactly when no position fails the test of line 139 and no two
    stars overlap. *)
Theorem frame_fixed_points (stars : list (star num)) :
  (exists out, frame stars = Some out /\ length out <= length stars)
  /\ (frame stars = Some stars
      <-> Forall (fun s => nan_pos s = false) stars /\ overlap_free stars).
Proof.
  rewrite frame_purged, updateStars_sweep.
  set (kept := filter (fun s => nan_pos s = false) stars).
  pose proof (length_filter (fun s => nan_pos s = false) stars) as Hkept.
  destruct (sweep_total (length kept) kept) as (out & Hout & Hlen); [done|].
  split; [exists out; split; [done|fold kept in Hkept; lia]|].
  split.
  - intros Hfix. rewrite Hfix in Hout. injection Hout as <-.
    assert (Hsame : kept = stars).
    { apply filter_keeps_length. fold kept in Hkept |- *. lia. }
    split.
    + rewrite <- Hsame. unfold kept. apply Forall_forall.
      by intros s [Hs _]%list_elem_of_filter.
    + apply (sweep_fixed_iff (length stars)); [done|]. by rewrite Hsame in Hfix.
  - intros [Hnan Hfree].
    assert (Hsame : kept = stars).
    { unfold kept. clear -Hnan. induction Hnan as [|a l Ha _ IH]; [done|].
      rewrite filter_cons_True by done. by rewrite IH. }
    rewrite Hsame. by apply sweep_fixed_iff.
Qed.
End FrameProofs.
